(** * A shallow embedding of the Wordle solver (src/wordle-solver.ts)

    Strings are sequences of 8-bit code units ([string] / [list ascii]);
    JavaScript numbers are integers (exact below 2^53) plus [NaN]; the
    frequency table, a JS object used as a dictionary keyed by one-letter
    strings, is a [gmap ascii Z]; [Set]s of letters are [gset ascii].
    The solver object is a record threaded through a small state-and-exception
    monad; [console.log] output is not modelled. *)

From Stdlib Require Import ZArith List Ascii String Permutation Sorted Lia.
From stdpp Require Import gmap strings list fin_maps.

Local Open Scope string_scope.
Local Open Scope Z_scope.

(** * Definitions *)

(** ** JavaScript built-ins used by the source *)

(** [s.split("")] *)
Definition split (s : string) : list ascii := list_ascii_of_string s.

(** [letters.join("")] *)
Definition join (letters : list ascii) : string := string_of_list_ascii letters.

(** [s[index]]; [None] is [undefined]. *)
Definition charAt (s : string) (index : nat) : option ascii := split s !! index.

(** [s.includes(letter)] for a one-letter string [letter]. *)
Definition includes (s : string) (letter : ascii) : bool :=
  existsb (Ascii.eqb letter) (split s).

(** [s.slice(start)] *)
Definition slice (s : string) (start : nat) : string := join (drop start (split s)).

(** [toLowerCase] on one code unit: A-Z and the Latin-1 capitals. *)
Definition lowerLetter (c : ascii) : ascii :=
  let n := nat_of_ascii c in
  if ((65 <=? n) && (n <=? 90) || (192 <=? n) && (n <=? 214)
      || (216 <=? n) && (n <=? 222))%nat
  then ascii_of_nat (n + 32) else c.

Definition toLowerCase (s : string) : string := join (map lowerLetter (split s)).

(** Callbacks of [filter], [every] and [forEach] receive the element and its
    index. *)
Fixpoint filterFrom {A} (f : A → nat → bool) (l : list A) (index : nat) : list A :=
  match l with
  | [] => []
  | x :: r => if f x index then x :: filterFrom f r (S index) else filterFrom f r (S index)
  end.

Fixpoint everyFrom {A} (f : A → nat → bool) (l : list A) (index : nat) : bool :=
  match l with
  | [] => true
  | x :: r => f x index && everyFrom f r (S index)
  end.

Fixpoint forEachFrom {A St} (f : A → nat → St → St) (l : list A) (index : nat) (s : St) : St :=
  match l with
  | [] => s
  | x :: r => forEachFrom f r (S index) (f x index s)
  end.

(** A JavaScript number: an integer or [NaN]. *)
Inductive num := Num (z : Z) | NaN.

(** [acc + table[letter]]: adding [undefined] gives [NaN], and [NaN] stays. *)
Definition addLookup (acc : num) (v : option Z) : num :=
  match acc, v with
  | Num x, Some y => Num (x + y)
  | _, _ => NaN
  end.

Definition sub (a b : num) : num :=
  match a, b with
  | Num x, Num y => Num (x - y)
  | _, _ => NaN
  end.

(** [Array.prototype.sort(cmp)]: a stable sort; [b] is moved before [a] only
    when [cmp a b > 0] (a [NaN] result counts as [0]). *)
Definition isPositive (v : num) : bool :=
  match v with Num z => 0 <? z | NaN => false end.

Fixpoint insertBy {A} (cmp : A → A → num) (a : A) (l : list A) : list A :=
  match l with
  | [] => [a]
  | b :: r => if isPositive (cmp a b) then b :: insertBy cmp a r else a :: b :: r
  end.

Definition sortBy {A} (cmp : A → A → num) (l : list A) : list A :=
  foldr (insertBy cmp) [] l.

(** ** utils: zip *)

(** [xs.map((x, i) => [x, ys[i]])] *)
Definition zip {X Y} (xs : list X) (ys : list Y) : list (X * option Y) :=
  imap (λ i x, (x, ys !! i)) xs.

(** ** The solver object *)

Record WordleSolver := mkSolver {
  corpus : list string;
  startingWord : option string;
  guessesAndScores : list (string * string);
  logging : bool;
  guessLength : nat;
}.

Definition withCorpus (c : list string) (this : WordleSolver) : WordleSolver :=
  mkSolver c (startingWord this) (guessesAndScores this) (logging this) (guessLength this).

Definition withHistory (h : list (string * string)) (this : WordleSolver) : WordleSolver :=
  mkSolver (corpus this) (startingWord this) h (logging this) (guessLength this).

Definition withStartingWord (w : option string) (this : WordleSolver) : WordleSolver :=
  mkSolver (corpus this) w (guessesAndScores this) (logging this) (guessLength this).

(** The three [throw new Error(...)] of [score]. *)
Inductive Error :=
  | GuessLengthError
  | ScoreLengthError
  | InvalidScoreLetters (letters : list ascii).

Inductive outcome (A : Type) :=
  | Returned (a : A)
  | Thrown (e : Error).
Arguments Returned {A} a.
Arguments Thrown {A} e.

(** A method: from the object before the call to its outcome and the object
    after it (on a throw, the object as it was when the error was raised). *)
Definition M (A : Type) : Type := WordleSolver → outcome A * WordleSolver.

Definition throw {A} (e : Error) : M A := λ this, (Thrown e, this).
Definition get : M WordleSolver := λ this, (Returned this, this).
Definition modify (f : WordleSolver → WordleSolver) : M unit := λ this, (Returned tt, f this).

#[global] Instance M_ret : MRet M := λ A a this, (Returned a, this).
#[global] Instance M_bind : MBind M := λ A B k m this,
  match m this with
  | (Returned a, this') => k a this'
  | (Thrown e, this') => (Thrown e, this')
  end.

Fixpoint forEachM {A} (f : A → nat → M unit) (l : list A) (index : nat) : M unit :=
  match l with
  | [] => mret tt
  | x :: r => f x index;; forEachM f r (S index)
  end.

(** ** Letter frequencies *)

(** One visit of the inner loop of [letterFrequency]:
    [if (!letterFreq[letter]) letterFreq[letter] = 1; letterFreq[letter]++].
    The test is true for a missing entry and for 0; the entry exists when it
    is incremented. *)
Definition countLetter (letterFreq : gmap ascii Z) (letter : ascii) : gmap ascii Z :=
  let letterFreq1 :=
    match letterFreq !! letter with
    | None | Some 0 => <[letter := 1]> letterFreq
    | Some _ => letterFreq
    end in
  alter Z.succ letter letterFreq1.

Definition letterFrequencyOf (words : list string) (atIndex : option nat) : gmap ascii Z :=
  fold_left (λ letterFreq word,
    forEachFrom (λ letter index letterFreq,
      match atIndex with
      | Some k => if negb (k =? index)%nat then letterFreq else countLetter letterFreq letter
      | None => countLetter letterFreq letter
      end) (split word) 0%nat letterFreq) words ∅.

Definition letterFrequency (atIndex : option nat) : M (gmap ascii Z) :=
  this ← get; mret (letterFrequencyOf (corpus this) atIndex).

(** [word.split("").reduce((acc, letter) => acc + letterFreq[letter], 0)] *)
Definition sumFrequencies (letterFreq : gmap ascii Z) (word : string) : num :=
  fold_left (λ acc letter, addLookup acc (letterFreq !! letter)) (split word) (Num 0).

Definition letterFrequencyScore (word : string) : M num :=
  letterFreq ← letterFrequency None; mret (sumFrequencies letterFreq word).

(** ** Ranking *)

(** [new Set(a).size] *)
Definition uniqs (a : string) : Z := Z.of_nat (size (list_to_set (split a) : gset ascii)).

Definition byFrequency (letterFreq : gmap ascii Z) (a b : string) : num :=
  let aUniqs := uniqs a in
  let bUniqs := uniqs b in
  let differenceOfUniqueness := bUniqs - aUniqs in
  if negb (differenceOfUniqueness =? 0) then Num differenceOfUniqueness
  else
    let aFreq := sumFrequencies letterFreq a in
    let bFreq := sumFrequencies letterFreq b in
    sub bFreq aFreq.

Definition sortByCommonness : M unit :=
  letterFreq ← letterFrequency None;
  modify (λ this, withCorpus (sortBy (byFrequency letterFreq) (corpus this)) this).

Definition sort : M unit := sortByCommonness.

Definition getSolutions : M (list string) :=
  sort;; this ← get; mret (corpus this).

(** ** Construction, reset and the best guess *)

Definition reset (corpus : list string) : M unit :=
  modify (λ this, withHistory [] (withCorpus corpus this)).

Definition getBestGuess : M (option string) :=
  this ← get;
  if (length (guessesAndScores this) =? 0)%nat then mret (startingWord this)
  else solutions ← getSolutions; mret (solutions !! 0%nat).

(** [new WordleSolver(corpus, startingWord, logging)]; the fields are unset
    before the constructor body runs. The default corpus [solutions] of
    words.json is passed explicitly. *)
Definition construct (corpus : list string) (startingWord : option string)
    (logging : bool) : M unit :=
  modify (λ _, mkSolver [] None [] logging 5);;
  reset corpus;;
  sort;;
  match startingWord with
  | Some w => modify (withStartingWord (Some w))
  | None => solutions ← getSolutions; modify (withStartingWord (solutions !! 0%nat))
  end.

Definition blank : WordleSolver := mkSolver [] None [] false 0.

Definition newWordleSolver (corpus : list string) (startingWord : option string)
    (logging : bool) : WordleSolver :=
  snd (construct corpus startingWord logging blank).

(** ** Filters *)

Definition excludeLetters (lettersToExclude : string) : M unit :=
  let excludedLetters : gset ascii := list_to_set (split lettersToExclude) in
  modify (λ this,
    withCorpus (List.filter (λ word,
      forallb (λ letter, negb (bool_decide (letter ∈ excludedLetters))) (split word))
      (corpus this)) this).

Definition differs (a : option ascii) (letter : ascii) : bool :=
  negb (bool_decide (a = Some letter)).

Definition excludeWithLetter (wrongLetter : ascii) (index : nat) : M unit :=
  modify (λ this,
    withCorpus (List.filter (λ word, differs (charAt word index) wrongLetter)
      (corpus this)) this).

Definition keepWithCorrectLetter (correctLetter : ascii) (index : nat) : M unit :=
  modify (λ this,
    withCorpus (List.filter (λ word, bool_decide (charAt word index = Some correctLetter))
      (corpus this)) this).

Definition keepWithMisplacedLetter (misplacedLetter : ascii) (index : nat) : M unit :=
  modify (λ this,
    withCorpus (List.filter (λ word,
      differs (charAt word index) misplacedLetter && includes word misplacedLetter)
      (corpus this)) this).

(** ** score *)

Definition isScoreLetter (l : ascii) : bool :=
  Ascii.eqb l "x" || Ascii.eqb l "e" || Ascii.eqb l "i".

Definition score (guess score : string) : M unit :=
  this ← get;
  if negb (String.length guess =? guessLength this)%nat then throw GuessLengthError else
  if negb (String.length score =? guessLength this)%nat then throw ScoreLengthError else
  let loweredScore := toLowerCase score in
  let invalidScoreLetters := List.filter (λ l, negb (isScoreLetter l)) (split score) in
  if negb (length invalidScoreLetters =? 0)%nat then throw (InvalidScoreLetters invalidScoreLetters) else
  modify (λ this, withHistory (guessesAndScores this ++ [(guess, loweredScore)]) this);;
  let guessAndScore := zip (split guess) (split loweredScore) in
  let duplicateLetters : gset ascii :=
    list_to_set (filterFrom (λ letter index, includes (slice guess (index + 1)) letter)
                   (split guess) 0%nat) in
  let misses :=
    map fst (List.filter (λ '(guessLetter, scoreLetter),
      bool_decide (scoreLetter = Some "e"%char)
      && negb (bool_decide (guessLetter ∈ duplicateLetters))) guessAndScore) in
  excludeLetters (join misses);;
  forEachM (λ '(guessLetter, scoreLetter) index,
    match scoreLetter with
    | Some "x"%char => keepWithCorrectLetter guessLetter index
    | Some "i"%char => keepWithMisplacedLetter guessLetter index
    | Some "e"%char => excludeWithLetter guessLetter index
    | _ => mret tt
    end) guessAndScore 0%nat;;
  sort.

(** ** getSecondGuess *)

(** The last record exists when the history is not empty, so the [None]
    branch is never taken; the solver made here and its [getSolutions] do not
    throw. *)
Definition getSecondGuess : M (list string) :=
  this ← get;
  if (length (guessesAndScores this) =? 0)%nat then mret (corpus this) else
  let currentWords := corpus this in
  match last (guessesAndScores this) with
  | None => mret (corpus this)
  | Some (priorGuess, priorGuessScore) =>
    let startingWords := List.filter (λ word,
      everyFrom (λ letter index,
        bool_decide (charAt priorGuessScore index = Some "x"%char)
        || differs (charAt priorGuess index) letter) (split word) 0%nat) currentWords in
    let solver := newWordleSolver startingWords None false in
    let '(solutions, _) := getSolutions solver in
    match solutions with
    | Returned l => mret l
    | Thrown e => throw e
    end
  end.

(** ** scoreGuess *)

Definition scoreGuess (guess targetWord : string) : string :=
  join (map (λ '(letter, targetLetter),
    if bool_decide (targetLetter = Some letter) then "x"%char
    else if includes targetWord letter then "i"%char
    else "e"%char) (zip (split guess) (split targetWord))).

(** ** Reference notions used in the statements *)

(** How often [letter] occurs in all the words together. *)
Definition timesIn (letter : ascii) (words : list string) : nat :=
  list_sum (map (λ word, count_occ ascii_dec (split word) letter) words).

(** How many words have [letter] at position [index]. *)
Definition wordsWithAt (letter : ascii) (index : nat) (words : list string) : nat :=
  length (List.filter (λ word, bool_decide (charAt word index = Some letter)) words).

Definition occurrences (atIndex : option nat) (letter : ascii) (words : list string) : nat :=
  match atIndex with
  | None => timesIn letter words
  | Some index => wordsWithAt letter index words
  end.

(** ** Auxiliary notions of the proofs *)

(** A table [t] holds the counts [f], each raised by one. *)
Definition holds (t : gmap ascii Z) (f : ascii → nat) : Prop :=
  ∀ c, t !! c = if (f c =? 0)%nat then None else Some (Z.of_nat (f c) + 1).

Definition selected (atIndex : option nat) (index : nat) : bool :=
  match atIndex with Some k => (k =? index)%nat | None => true end.

Fixpoint countFrom (atIndex : option nat) (c : ascii) (letters : list ascii)
    (index : nat) : nat :=
  match letters with
  | [] => 0
  | l :: r => (if selected atIndex index && bool_decide (l = c) then 1 else 0)
              + countFrom atIndex c r (S index)
  end%nat.

Definition visit (atIndex : option nat) (letter : ascii) (index : nat)
    (letterFreq : gmap ascii Z) : gmap ascii Z :=
  match atIndex with
  | Some k => if negb (k =? index)%nat then letterFreq else countLetter letterFreq letter
  | None => countLetter letterFreq letter
  end.

(** [a] may stay in front of [b]. *)
Definition inOrder {A} (cmp : A → A → num) (a b : A) : Prop := isPositive (cmp a b) = false.

(** The corpus after [sort()]. *)
Definition ranked (words : list string) : list string :=
  sortBy (byFrequency (letterFrequencyOf words None)) words.

(** ** What [score] does to the solver *)

(** The test of one position of the guess, as the [switch] of [score] has it. *)
Definition positionalKeep (guessLetter : ascii) (scoreLetter : option ascii)
    (index : nat) (word : string) : bool :=
  if bool_decide (scoreLetter = Some "x"%char)
  then bool_decide (charAt word index = Some guessLetter)
  else if bool_decide (scoreLetter = Some "i"%char)
  then differs (charAt word index) guessLetter && includes word guessLetter
  else if bool_decide (scoreLetter = Some "e"%char)
  then differs (charAt word index) guessLetter
  else true.

Fixpoint positionalAll (guessAndScore : list (ascii * option ascii)) (index : nat)
    (word : string) : bool :=
  match guessAndScore with
  | [] => true
  | (guessLetter, scoreLetter) :: r =>
      positionalKeep guessLetter scoreLetter index word && positionalAll r (S index) word
  end.

Definition duplicateLettersOf (guess : string) : gset ascii :=
  list_to_set (filterFrom (λ letter index, includes (slice guess (index + 1)) letter)
                 (split guess) 0%nat).

Definition missesOf (guess score : string) : list ascii :=
  map fst (List.filter (λ '(guessLetter, scoreLetter),
    bool_decide (scoreLetter = Some "e"%char)
    && negb (bool_decide (guessLetter ∈ duplicateLettersOf guess)))
    (zip (split guess) (split score))).

(** The words that one call of [score] keeps. *)
Definition keeps (guess score : string) (word : string) : bool :=
  forallb (λ letter, negb (bool_decide (letter ∈ (list_to_set (missesOf guess score) : gset ascii))))
    (split word)
  && positionalAll (zip (split guess) (split score)) 0%nat word.

Definition scoreLetterOk (scoreLetter : option ascii) : Prop :=
  scoreLetter = Some "x"%char ∨ scoreLetter = Some "e"%char ∨ scoreLetter = Some "i"%char.

(** A guess and a feedback of [n] letters each, the feedback over x, e, i. *)
Definition wellFormed (n : nat) (guess fb : string) : Prop :=
  String.length guess = n ∧
  String.length fb = n ∧
  forallb isScoreLetter (split fb) = true.

(** A call [score(guess, fb)] that passes the three checks. *)
Definition validCall (this : WordleSolver) (guess fb : string) : Prop :=
  wellFormed (guessLength this) guess fb.

Definition afterScore (this : WordleSolver) (guess score : string) : WordleSolver :=
  mkSolver (ranked (List.filter (keeps guess score) (corpus this)))
    (startingWord this) (guessesAndScores this ++ [(guess, score)])
    (logging this) (guessLength this).

(** ** Consistency of a word with one scored guess *)

(** [letter] occurs more than once in the guess. *)
Definition duplicated (guess : string) (letter : ascii) : Prop :=
  ∃ i j, i ≠ j ∧ charAt guess i = Some letter ∧ charAt guess j = Some letter.

(** [letter] is scored Absent somewhere in the guess and is not duplicated. *)
Definition globallyExcluded (guess fb : string) (letter : ascii) : Prop :=
  ¬ duplicated guess letter ∧
  ∃ i, charAt guess i = Some letter ∧ charAt fb i = Some "e"%char.

(** The constraint of position [i]. *)
Definition positional (guess fb word : string) (i : nat) : Prop :=
  ∀ g, charAt guess i = Some g →
    (charAt fb i = Some "x"%char → charAt word i = Some g) ∧
    (charAt fb i = Some "i"%char → In g (split word) ∧ charAt word i ≠ Some g) ∧
    (charAt fb i = Some "e"%char → charAt word i ≠ Some g).

Definition consistent (guess fb word : string) : Prop :=
  (∀ letter, globallyExcluded guess fb letter → ¬ In letter (split word)) ∧
  (∀ i, positional guess fb word i).

(** ** Example inputs *)

Definition demoWords : list string :=
  ["later"; "tower"; "there"; "shire"; "fiery"; "overt"; "other"; "three"].

Definition demoSolver : WordleSolver := newWordleSolver demoWords None false.

(** ** Incremental use and replay *)

(** What a caller may do with a solver between two scored guesses. *)
Inductive call :=
  | CallScore (guess fb : string)
  | CallGetBestGuess
  | CallGetSolutions
  | CallGetSecondGuess
  | CallLetterFrequencyScore (word : string).

Definition perform (c : call) : M unit :=
  match c with
  | CallScore guess fb => score guess fb
  | CallGetBestGuess => getBestGuess;; mret tt
  | CallGetSolutions => getSolutions;; mret tt
  | CallGetSecondGuess => getSecondGuess;; mret tt
  | CallLetterFrequencyScore word => letterFrequencyScore word;; mret tt
  end.

Fixpoint session (calls : list call) : M unit :=
  match calls with
  | [] => mret tt
  | c :: r => perform c;; session r
  end.

(** The scored guesses of a session, in order. *)
Fixpoint scoresOf (calls : list call) : list (string * string) :=
  match calls with
  | [] => []
  | CallScore guess fb :: r => (guess, fb) :: scoresOf r
  | _ :: r => scoresOf r
  end.

(** Replaying a history: one [score] per record, in order. *)
Fixpoint replay (history : list (string * string)) : M unit :=
  match history with
  | [] => mret tt
  | (guess, fb) :: r => score guess fb;; replay r
  end.

(** The corpus after the records of [history] have been applied to [words]. *)
Definition narrowed (history : list (string * string)) (words : list string) : list string :=
  fold_left (λ words '(guess, fb), ranked (List.filter (keeps guess fb) words)) history words.

Definition afterHistory (this : WordleSolver) (history : list (string * string)) : WordleSolver :=
  mkSolver (narrowed history (corpus this)) (startingWord this)
    (guessesAndScores this ++ history) (logging this) (guessLength this).

Definition demoCalls : list call :=
  [CallGetBestGuess; CallScore "later" "eeixx"; CallGetBestGuess;
   CallGetSecondGuess; CallScore "other" "iiixx"; CallGetSolutions].

(** ** The four filters as values *)

Inductive filterStep :=
  | ExcludeLetters (lettersToExclude : string)
  | ExcludeWithLetter (wrongLetter : ascii) (index : nat)
  | KeepWithCorrectLetter (correctLetter : ascii) (index : nat)
  | KeepWithMisplacedLetter (misplacedLetter : ascii) (index : nat).

Definition runStep (step : filterStep) : M unit :=
  match step with
  | ExcludeLetters lettersToExclude => excludeLetters lettersToExclude
  | ExcludeWithLetter wrongLetter index => excludeWithLetter wrongLetter index
  | KeepWithCorrectLetter correctLetter index => keepWithCorrectLetter correctLetter index
  | KeepWithMisplacedLetter misplacedLetter index => keepWithMisplacedLetter misplacedLetter index
  end.

(** The words a filter keeps. *)
Definition stepKeeps (step : filterStep) (word : string) : Prop :=
  match step with
  | ExcludeLetters lettersToExclude =>
      ∀ letter, In letter (split word) → ¬ In letter (split lettersToExclude)
  | ExcludeWithLetter wrongLetter index => charAt word index ≠ Some wrongLetter
  | KeepWithCorrectLetter correctLetter index => charAt word index = Some correctLetter
  | KeepWithMisplacedLetter misplacedLetter index =>
      charAt word index ≠ Some misplacedLetter ∧ In misplacedLetter (split word)
  end.

Definition stepTest (step : filterStep) (word : string) : bool :=
  match step with
  | ExcludeLetters lettersToExclude =>
      forallb (λ letter,
        negb (bool_decide (letter ∈ (list_to_set (split lettersToExclude) : gset ascii))))
        (split word)
  | ExcludeWithLetter wrongLetter index => differs (charAt word index) wrongLetter
  | KeepWithCorrectLetter correctLetter index =>
      bool_decide (charAt word index = Some correctLetter)
  | KeepWithMisplacedLetter misplacedLetter index =>
      differs (charAt word index) misplacedLetter && includes word misplacedLetter
  end.

(** ** playRound *)

Record Round := mkRound {
  attempts : nat;
  targetWord : string;
  firstGuess : string;
  guesses : list string;
  scores : list string;
}.

(** How a round can fail: [scoreGuess] is handed [null] (a TypeError), the
    loop finds no guess left, or [score] throws. *)
Inductive RoundError :=
  | NullGuess
  | NoMoreGuesses (priorGuess targetWord : string)
  | SolverError (e : Error).

(** The [while] loop of [playRound], with the number of iterations bounded by
    [fuel]; [None] means that the bound was reached. [null] and the empty
    string are the falsy guesses. The arrays of a round that throws are
    lost, so the guess is appended after the test. *)
Fixpoint playLoop (fuel : nat) (targetWord solvedScore firstGuess : string)
    (solver : WordleSolver) (myGuess myScore : string) (attempts : nat)
    (guesses scores : list string) : option (RoundError + Round) :=
  match fuel with
  | O => None
  | S fuel =>
    if negb (String.eqb myScore solvedScore) then
      let priorGuess := myGuess in
      match getBestGuess solver with
      | (Thrown e, _) => Some (inl (SolverError e))
      | (Returned None, _) => Some (inl (NoMoreGuesses priorGuess targetWord))
      | (Returned (Some myGuess), solver) =>
        if (String.length myGuess =? 0)%nat
        then Some (inl (NoMoreGuesses priorGuess targetWord))
        else
          let guesses := (guesses ++ [myGuess])%list in
          let myScore := scoreGuess myGuess targetWord in
          let scores := (scores ++ [myScore])%list in
          match score myGuess myScore solver with
          | (Thrown e, _) => Some (inl (SolverError e))
          | (Returned _, solver) =>
              playLoop fuel targetWord solvedScore firstGuess solver myGuess myScore
                (S attempts) guesses scores
          end
      end
    else Some (inr (mkRound attempts targetWord firstGuess guesses scores))
  end.

(** [playRound(targetWord, startingWord, logging)]; [solutions] is the
    default corpus of words.json, which the solver is built from. *)
Definition playRound (fuel : nat) (solutions : list string) (targetWord : string)
    (startingWord : option string) (logging : bool) : option (RoundError + Round) :=
  let solver := newWordleSolver solutions startingWord false in
  match getBestGuess solver with
  | (Thrown e, _) => Some (inl (SolverError e))
  | (Returned None, _) => Some (inl NullGuess)
  | (Returned (Some myGuess), solver) =>
      let myScore := scoreGuess myGuess targetWord in
      let firstGuess := myGuess in
      let solvedScore := join (replicate (guessLength solver) "x"%char) in
      playLoop fuel targetWord solvedScore firstGuess solver myGuess myScore 0 [] []
  end.

(** The sum of the true numbers of occurrences of the letters of a word. *)
Definition letterTotal (word : string) (words : list string) : nat :=
  list_sum (map (λ letter, timesIn letter words) (split word)).

(** ** The frequency table with its property order, bestLetters *)

(** A JS object with one-letter property names is kept as the list of its
    own properties in the order of their creation: [objGet] is
    [object[key]], [objSet] is [object[key] = value]. *)
Definition objGet (object : list (ascii * Z)) (key : ascii) : option Z :=
  snd <$> List.find (λ p, Ascii.eqb (fst p) key) object.

Fixpoint objSet (object : list (ascii * Z)) (key : ascii) (value : Z) : list (ascii * Z) :=
  match object with
  | [] => [(key, value)]
  | (k, v) :: r => if Ascii.eqb k key then (k, value) :: r else (k, v) :: objSet r key value
  end.

(** [Object.entries]: the array-index names (here the digits) in ascending
    order first, then the other names in the order of their creation. *)
Definition isIndexName (c : ascii) : bool :=
  ((48 <=? nat_of_ascii c) && (nat_of_ascii c <=? 57))%nat.

Definition byName (a b : ascii * Z) : num :=
  Num (Z.of_nat (nat_of_ascii (fst a)) - Z.of_nat (nat_of_ascii (fst b))).

Definition objectEntries (object : list (ascii * Z)) : list (ascii * Z) :=
  (sortBy byName (List.filter (λ p, isIndexName (fst p)) object)
   ++ List.filter (λ p, negb (isIndexName (fst p))) object)%list.

(** The loop body of [letterFrequency] on the ordered table. *)
Definition countLetterIn (letterFreq : list (ascii * Z)) (letter : ascii) : list (ascii * Z) :=
  let letterFreq1 :=
    match objGet letterFreq letter with
    | None | Some 0 => objSet letterFreq letter 1
    | Some _ => letterFreq
    end in
  match objGet letterFreq1 letter with
  | Some v => objSet letterFreq1 letter (Z.succ v)
  | None => letterFreq1
  end.

(** The object that [letterFrequency] builds, with the order of its
    properties; [letterFrequencyOf] is the same table without the order. *)
Definition letterFrequencyObject (words : list string) (atIndex : option nat)
    : list (ascii * Z) :=
  fold_left (λ letterFreq word,
    forEachFrom (λ letter index letterFreq,
      match atIndex with
      | Some k => if negb (k =? index)%nat then letterFreq else countLetterIn letterFreq letter
      | None => countLetterIn letterFreq letter
      end) (split word) 0%nat letterFreq) words [].

(** [([, aFreq], [, bFreq]) => bFreq - aFreq] *)
Definition byValue (a b : ascii * Z) : num := Num (snd b - snd a).

(** [Object.entries(letterFreq).sort(...).map(([letter]) => letter).join("")] *)
Definition sortedLetters (letterFreq : list (ascii * Z)) : string :=
  join (map fst (sortBy byValue (objectEntries letterFreq))).

Definition bestLetters (frequencyMap : option (list (ascii * Z))) : M string :=
  this ← get;
  let letterFreq :=
    match frequencyMap with
    | Some object => object
    | None => letterFrequencyObject (corpus this) None
    end in
  mret (sortedLetters letterFreq).

(** The [for] loop of [bestLetterPositions], [count] indices from [index]. *)
Fixpoint bestLetterPositionsFrom (count index : nat) (result : list string)
    : M (list string) :=
  match count with
  | O => mret result
  | S count =>
      this ← get;
      letters ← bestLetters (Some (letterFrequencyObject (corpus this) (Some index)));
      bestLetterPositionsFrom count (S index) (result ++ [letters])%list
  end.

Definition bestLetterPositions : M (list string) :=
  solutions ← getSolutions;
  this ← get;
  bestLetterPositionsFrom (guessLength this) 0 [].

Definition visitIn (atIndex : option nat) (letter : ascii) (index : nat)
    (letterFreq : list (ascii * Z)) : list (ascii * Z) :=
  match atIndex with
  | Some k => if negb (k =? index)%nat then letterFreq else countLetterIn letterFreq letter
  | None => countLetterIn letterFreq letter
  end.

#[global] Instance num_eq_dec : EqDecision num.
Proof. solve_decision. Defined.

(** Two words rank alike in a corpus: the same number of distinct letters
    and the same sum of letter frequencies. *)
Definition sameRank (words : list string) (x w : string) : bool :=
  bool_decide (uniqs w = uniqs x ∧
               sumFrequencies (letterFrequencyOf words None) w
               = sumFrequencies (letterFrequencyOf words None) x).

(** A letter of the feedback alphabet in either case: x, e, i once lowered. *)
Definition recognized (l : ascii) : bool := isScoreLetter (lowerLetter l).

(** * Proofs *)

(** ** Letter frequencies *)

Lemma holds_ext t f g : holds t f → (∀ c, f c = g c) → holds t g.
Proof. intros H E c. rewrite <- E. apply H. Qed.

Lemma holds_empty : holds ∅ (λ _, 0%nat).
Proof. intros c. by rewrite lookup_empty. Qed.

Lemma holds_countLetter t f letter :
  holds t f →
  holds (countLetter t letter) (λ c, if decide (c = letter) then S (f c) else f c).
Proof.
  intros H c. unfold countLetter.
  pose proof (H letter) as Hl.
  destruct (Nat.eqb_spec (f letter) 0) as [E0|E0].
  - rewrite Hl. rewrite lookup_alter. case_decide as Hc.
    + subst c. rewrite decide_True by done. rewrite lookup_insert_eq. simpl.
      rewrite E0. f_equal.
    + rewrite decide_False by congruence.
      rewrite lookup_insert_ne by done. apply H.
  - rewrite Hl.
    assert (Hnz : ∃ p, Z.of_nat (f letter) + 1 = Z.pos p).
    { destruct (Z.of_nat (f letter) + 1) eqn:E; try lia. eauto. }
    destruct Hnz as [p Hp]. rewrite Hp.
    rewrite lookup_alter. case_decide as Hc.
    + subst c. rewrite decide_True by done. rewrite Hl, Hp. simpl.
      f_equal. lia.
    + rewrite decide_False by congruence. apply H.
Qed.

Lemma holds_visit atIndex letters : ∀ index t f,
  holds t f →
  holds (forEachFrom (visit atIndex) letters index t)
        (λ c, f c + countFrom atIndex c letters index)%nat.
Proof.
  induction letters as [|l r IH]; intros index t f H; simpl.
  - eapply holds_ext; [exact H|]. intros c. lia.
  - eapply holds_ext.
    + apply IH. instantiate (1 := λ c, (f c + (if selected atIndex index && bool_decide (l = c) then 1 else 0))%nat).
      unfold visit, selected. destruct atIndex as [k|].
      * destruct (Nat.eqb_spec k index); simpl.
        -- eapply holds_ext; [apply holds_countLetter, H|].
           intros c. simpl. case_decide; case_bool_decide; try congruence; lia.
        -- eapply holds_ext; [exact H|]. intros c. simpl. lia.
      * eapply holds_ext; [apply holds_countLetter, H|].
        intros c. simpl. case_decide; case_bool_decide; try congruence; lia.
    + intros c. simpl. lia.
Qed.

Lemma holds_words atIndex words : ∀ t f,
  holds t f →
  holds (fold_left (λ letterFreq word,
           forEachFrom (visit atIndex) (split word) 0%nat letterFreq) words t)
        (λ c, f c + list_sum (map (λ word, countFrom atIndex c (split word) 0) words))%nat.
Proof.
  induction words as [|w ws IH]; intros t f H; simpl.
  - eapply holds_ext; [exact H|]. intros c. lia.
  - eapply holds_ext.
    + apply IH. apply holds_visit. exact H.
    + intros c. simpl. lia.
Qed.

Lemma countFrom_None c letters : ∀ index,
  countFrom None c letters index = count_occ ascii_dec letters c.
Proof.
  induction letters as [|l r IH]; intros index; simpl; [done|].
  rewrite IH. case_bool_decide; destruct (ascii_dec l c); simpl; congruence.
Qed.

Lemma countFrom_Some k c letters : ∀ index,
  countFrom (Some k) c letters index =
  if bool_decide ((index ≤ k)%nat ∧ letters !! (k - index)%nat = Some c) then 1%nat else 0%nat.
Proof.
  induction letters as [|l r IH]; intros index; simpl.
  - case_bool_decide as H; [|done]. destruct H as [_ H]. by rewrite lookup_nil in H.
  - rewrite IH. destruct (Nat.eqb_spec k index) as [->|Hne]; simpl.
    + rewrite Nat.sub_diag. simpl.
      rewrite (bool_decide_eq_false_2 ((S index ≤ index)%nat ∧ _)) by lia.
      repeat case_bool_decide; subst; try done.
      * exfalso. auto.
      * exfalso. intuition congruence.
    + destruct (decide (index ≤ k)%nat) as [Hle|Hgt].
      * replace (k - index)%nat with (S (k - S index)) by lia. simpl.
        apply (f_equal (λ b : bool, if b then 1%nat else 0%nat)).
        apply bool_decide_ext. split; intros [? ?]; split; auto; lia.
      * rewrite !bool_decide_eq_false_2; [done| |]; lia.
Qed.

Lemma list_sum_indicator {A} (p : A → bool) (l : list A) :
  list_sum (map (λ x, if p x then 1%nat else 0%nat) l) = length (List.filter p l).
Proof. induction l as [|x l IH]; simpl; [done|]. destruct (p x); simpl; lia. Qed.

(** What the table holds: nothing for a letter that does not occur, and
    otherwise its number of occurrences plus one. *)
Lemma letterFrequencyOf_lookup words atIndex c :
  letterFrequencyOf words atIndex !! c =
  if (occurrences atIndex c words =? 0)%nat then None
  else Some (Z.of_nat (occurrences atIndex c words) + 1).
Proof.
  pose proof (holds_words atIndex words ∅ _ holds_empty c) as H.
  unfold letterFrequencyOf. fold (visit atIndex). simpl in H.
  assert (E : list_sum (map (λ word, countFrom atIndex c (split word) 0) words)
              = occurrences atIndex c words).
  { destruct atIndex as [k|]; simpl.
    - unfold wordsWithAt. rewrite <- list_sum_indicator. f_equal.
      apply map_ext. intros w. rewrite countFrom_Some.
      rewrite Nat.sub_0_r. unfold charAt.
      apply (f_equal (λ b : bool, if b then 1%nat else 0%nat)).
      apply bool_decide_ext. split; [tauto|]. split; [lia|done].
    - unfold timesIn. f_equal. apply map_ext. intros w. apply countFrom_None. }
  rewrite E in H. exact H.
Qed.

(** ** The stable sort *)

Section Sorting.
Context {A : Type} (cmp : A → A → num).

Lemma insertBy_Permutation a l : Permutation (insertBy cmp a l) (a :: l).
Proof.
  induction l as [|b r IH]; simpl; [done|].
  destruct (isPositive (cmp a b)); [|done].
  rewrite IH. apply perm_swap.
Qed.

Lemma sortBy_Permutation l : Permutation (sortBy cmp l) l.
Proof.
  induction l as [|a r IH]; simpl; [done|].
  rewrite insertBy_Permutation. by constructor.
Qed.

Lemma sortBy_length l : length (sortBy cmp l) = length l.
Proof. apply Permutation_length, sortBy_Permutation. Qed.

Lemma sortBy_In l x : In x (sortBy cmp l) ↔ In x l.
Proof.
  split; apply Permutation_in; [|symmetry]; apply sortBy_Permutation.
Qed.

Lemma sortBy_of_Sorted l : Sorted (inOrder cmp) l → sortBy cmp l = l.
Proof.
  induction 1 as [|a l Hs IH Hhd]; simpl; [done|].
  rewrite IH. destruct Hhd as [|b l Hab]; simpl; [done|].
  unfold inOrder in Hab. by rewrite Hab.
Qed.

Hypothesis cmp_sign : ∀ a b, isPositive (cmp a b) = true → isPositive (cmp b a) = false.

Lemma insertBy_Sorted a l : Sorted (inOrder cmp) l → Sorted (inOrder cmp) (insertBy cmp a l).
Proof.
  induction 1 as [|b l Hs IH Hhd]; simpl.
  - repeat constructor.
  - destruct (isPositive (cmp a b)) eqn:E.
    + constructor; [exact IH|].
      destruct Hhd as [|c l Hbc]; simpl.
      * constructor. by apply cmp_sign.
      * destruct (isPositive (cmp a c)); constructor; [exact Hbc|by apply cmp_sign].
    + constructor; [by constructor|by constructor].
Qed.

Lemma sortBy_Sorted l : Sorted (inOrder cmp) (sortBy cmp l).
Proof.
  induction l as [|a r IH]; simpl; [constructor|]. by apply insertBy_Sorted.
Qed.

Lemma sortBy_idempotent l : sortBy cmp (sortBy cmp l) = sortBy cmp l.
Proof. apply sortBy_of_Sorted, sortBy_Sorted. Qed.

End Sorting.

Lemma byFrequency_sign t a b :
  isPositive (byFrequency t a b) = true → isPositive (byFrequency t b a) = false.
Proof.
  unfold byFrequency. simpl.
  destruct (Z.eqb_spec (uniqs b - uniqs a) 0) as [E|E];
    destruct (Z.eqb_spec (uniqs a - uniqs b) 0) as [E'|E']; simpl; try lia.
  destruct (sumFrequencies t a), (sumFrequencies t b); simpl; try done. lia.
Qed.

Lemma list_sum_map_Permutation {B} (g : B → nat) l l' :
  Permutation l l' → list_sum (map g l) = list_sum (map g l').
Proof. induction 1; simpl; lia. Qed.

Lemma occurrences_Permutation atIndex c l l' :
  Permutation l l' → occurrences atIndex c l = occurrences atIndex c l'.
Proof.
  intros H. destruct atIndex as [k|]; simpl.
  - unfold wordsWithAt. rewrite <- !list_sum_indicator.
    by apply list_sum_map_Permutation.
  - by apply list_sum_map_Permutation.
Qed.

Lemma letterFrequencyOf_Permutation atIndex l l' :
  Permutation l l' → letterFrequencyOf l atIndex = letterFrequencyOf l' atIndex.
Proof.
  intros H. apply map_eq. intros c. rewrite !letterFrequencyOf_lookup.
  by rewrite (occurrences_Permutation atIndex c l l' H).
Qed.

Lemma ranked_Permutation l : Permutation (ranked l) l.
Proof. apply sortBy_Permutation. Qed.

Lemma ranked_In l w : In w (ranked l) ↔ In w l.
Proof. apply sortBy_In. Qed.

Lemma ranked_length l : length (ranked l) = length l.
Proof. apply sortBy_length. Qed.

Lemma ranked_idempotent l : ranked (ranked l) = ranked l.
Proof.
  unfold ranked at 1.
  rewrite (letterFrequencyOf_Permutation None _ l (ranked_Permutation l)).
  apply sortBy_idempotent, byFrequency_sign.
Qed.

(** ** Running the methods *)

Lemma sort_run this : sort this = (Returned tt, withCorpus (ranked (corpus this)) this).
Proof. reflexivity. Qed.

Lemma getSolutions_run this :
  getSolutions this = (Returned (ranked (corpus this)), withCorpus (ranked (corpus this)) this).
Proof. reflexivity. Qed.

Lemma newWordleSolver_eq words sw lg :
  newWordleSolver words sw lg =
  mkSolver (ranked words)
    (match sw with Some w => Some w | None => ranked words !! 0%nat end) [] lg 5.
Proof.
  unfold newWordleSolver, construct. destruct sw as [w|]; [reflexivity|].
  cbn -[ranked letterFrequencyOf sortBy]. unfold withCorpus, withStartingWord; simpl.
  fold (ranked words). fold (ranked (ranked words)). by rewrite ranked_idempotent.
Qed.

(** ** Strings *)

Lemma split_join l : split (join l) = l.
Proof. apply list_ascii_of_string_of_list_ascii. Qed.

Lemma join_split s : join (split s) = s.
Proof. apply string_of_list_ascii_of_string. Qed.

Lemma length_split s : length (split s) = String.length s.
Proof. induction s; simpl; [done|]. by f_equal. Qed.

Lemma includes_In s letter : includes s letter = true ↔ In letter (split s).
Proof.
  unfold includes. rewrite existsb_exists. split.
  - intros (x & Hin & E). apply Ascii.eqb_eq in E. by subst.
  - intros H. exists letter. split; [done|]. apply Ascii.eqb_refl.
Qed.

Lemma isScoreLetter_spec l :
  isScoreLetter l = true ↔ l = "x"%char ∨ l = "e"%char ∨ l = "i"%char.
Proof.
  unfold isScoreLetter. rewrite !orb_true_iff, !Ascii.eqb_eq. tauto.
Qed.

Lemma lowerLetter_scoreLetter l : isScoreLetter l = true → lowerLetter l = l.
Proof. rewrite isScoreLetter_spec. by intros [->|[->| ->]]. Qed.

Lemma toLowerCase_scoreLetters s :
  forallb isScoreLetter (split s) = true → toLowerCase s = s.
Proof.
  intros H. unfold toLowerCase. rewrite <- (join_split s) at 2. f_equal.
  rewrite forallb_forall in H.
  rewrite <- (map_id (split s)) at 2. apply map_ext_in.
  intros l Hl. by apply lowerLetter_scoreLetter, H.
Qed.

Lemma filter_nil_forallb {B} (p : B → bool) l :
  length (List.filter (λ x, negb (p x)) l) = 0%nat ↔ forallb p l = true.
Proof.
  induction l as [|x l IH]; simpl; [done|].
  destruct (p x); simpl; [exact IH|]. split; [lia|done].
Qed.

Lemma filter_filter {B} (p q : B → bool) l :
  List.filter q (List.filter p l) = List.filter (λ x, p x && q x) l.
Proof.
  induction l as [|x l IH]; simpl; [done|].
  destruct (p x) eqn:E; simpl; [|exact IH]. destruct (q x); by rewrite IH.
Qed.

Lemma filter_true {B} (l : list B) : List.filter (λ _, true) l = l.
Proof. induction l as [|x l IH]; simpl; [done|]. by rewrite IH. Qed.

Lemma forEachM_positional guessAndScore : ∀ index this,
  Forall (λ p, scoreLetterOk (snd p)) guessAndScore →
  forEachM (λ '(guessLetter, scoreLetter) index,
    match scoreLetter with
    | Some "x"%char => keepWithCorrectLetter guessLetter index
    | Some "i"%char => keepWithMisplacedLetter guessLetter index
    | Some "e"%char => excludeWithLetter guessLetter index
    | _ => mret tt
    end) guessAndScore index this
  = (Returned tt,
     withCorpus (List.filter (positionalAll guessAndScore index) (corpus this)) this).
Proof.
  induction guessAndScore as [|[g sl] r IH]; intros index this Hok.
  - simpl. destruct this; unfold withCorpus; simpl. by rewrite filter_true.
  - inversion Hok as [|? ? Hsl Hr]; subst. simpl in Hsl.
    cbn [forEachM]. unfold mbind, M_bind.
    assert (E : ∀ m : M unit,
      m this = (Returned tt,
                withCorpus (List.filter (positionalKeep g sl index) (corpus this)) this) →
      (let (o, this') := m this in
       match o with
       | Returned _ => forEachM (λ '(guessLetter, scoreLetter) index,
           match scoreLetter with
           | Some "x"%char => keepWithCorrectLetter guessLetter index
           | Some "i"%char => keepWithMisplacedLetter guessLetter index
           | Some "e"%char => excludeWithLetter guessLetter index
           | _ => mret tt
           end) r (S index) this'
       | Thrown e => (Thrown e, this')
       end) =
      (Returned tt,
       withCorpus (List.filter (positionalAll ((g, sl) :: r) index) (corpus this)) this)).
    { intros m ->. rewrite IH by done. simpl. unfold withCorpus; simpl.
      by rewrite filter_filter. }
    destruct Hsl as [->|[->| ->]]; apply E; reflexivity.
Qed.

Lemma validCall_letters this guess fb :
  validCall this guess fb → forallb isScoreLetter (split fb) = true.
Proof. by intros (_ & _ & H). Qed.

Lemma zip_lookup {X Y} (xs : list X) (ys : list Y) i x y :
  zip xs ys !! i = Some (x, y) ↔ xs !! i = Some x ∧ y = ys !! i.
Proof.
  unfold zip. rewrite list_lookup_imap. destruct (xs !! i); simpl.
  - split; [intros [= <- <-]; done | intros [[= ->] ->]; done].
  - split; [done | intros [? _]; done].
Qed.

Lemma zip_scoreLetterOk this guess score :
  validCall this guess score →
  Forall (λ p, scoreLetterOk (snd p)) (zip (split guess) (split score)).
Proof.
  intros (Hg & Hs & Hl). rewrite forallb_forall in Hl.
  apply Forall_forall. intros [g sl] Hin.
  apply list_elem_of_lookup in Hin.
  destruct Hin as [i Hi].
  apply zip_lookup in Hi. destruct Hi as [Hgi ->]. simpl.
  apply lookup_lt_Some in Hgi. rewrite length_split in Hgi.
  destruct (split score !! i) as [l|] eqn:E.
  - assert (In l (split score)) as Hin.
    { rewrite <- list_elem_of_In. apply list_elem_of_lookup. eauto. }
    unfold scoreLetterOk. apply Hl, isScoreLetter_spec in Hin.
    destruct Hin as [->|[->| ->]]; auto.
  - apply lookup_ge_None in E. rewrite length_split in E. lia.
Qed.

Lemma score_run this guess fb :
  validCall this guess fb →
  score guess fb this = (Returned tt, afterScore this guess fb).
Proof.
  intros Hv. pose proof (validCall_letters _ _ _ Hv) as Hl.
  pose proof (zip_scoreLetterOk _ _ _ Hv) as Hz.
  destruct Hv as (Hg & Hs & _).
  unfold score, mbind, M_bind, get.
  rewrite Hg, Hs, Nat.eqb_refl. cbn [negb].
  apply filter_nil_forallb in Hl as Hn. rewrite Hn. cbn [Nat.eqb negb].
  rewrite (toLowerCase_scoreLetters _ Hl).
  cbn [modify]. unfold excludeLetters. cbn [modify].
  rewrite forEachM_positional by exact Hz.
  rewrite sort_run. unfold afterScore, withCorpus, withHistory; cbn.
  rewrite filter_filter, split_join. reflexivity.
Qed.

Lemma filterFrom_elem {B} (f : B → nat → bool) l : ∀ index x,
  x ∈ filterFrom f l index ↔ ∃ i, l !! i = Some x ∧ f x (index + i)%nat = true.
Proof.
  induction l as [|y r IH]; intros index x; simpl.
  - split; [by intros ?%elem_of_nil | by intros (i & ? & _)].
  - assert (R : (∃ i, (y :: r) !! i = Some x ∧ f x (index + i)%nat = true) ↔
                (y = x ∧ f x index = true) ∨
                (∃ i, r !! i = Some x ∧ f x (S index + i)%nat = true)).
    { split.
      - intros ([|i] & Hi & Hf); simpl in Hi.
        + left. rewrite Nat.add_0_r in Hf. by injection Hi as ->.
        + right. exists i. split; [done|]. by replace (S index + i)%nat with (index + S i)%nat by lia.
      - intros [[-> Hf]|(i & Hi & Hf)].
        + exists 0%nat. by rewrite Nat.add_0_r.
        + exists (S i). split; [done|]. by replace (index + S i)%nat with (S index + i)%nat by lia. }
    rewrite R. destruct (f y index) eqn:E.
    + rewrite elem_of_cons, IH. split; [intros [->|?]; auto | intros [[-> _]|?]; auto].
    + rewrite IH. split; [auto | intros [[-> Hf]|?]; [congruence|done]].
Qed.

Lemma includes_slice s n x :
  includes (slice s n) x = true ↔ ∃ j, (n ≤ j)%nat ∧ charAt s j = Some x.
Proof.
  rewrite includes_In. unfold slice, charAt. rewrite split_join.
  rewrite <- list_elem_of_In, list_elem_of_lookup. split.
  - intros [i Hi]. rewrite lookup_drop in Hi. exists (n + i)%nat. split; [lia|done].
  - intros (j & Hle & Hj). exists (j - n)%nat. rewrite lookup_drop.
    by replace (n + (j - n))%nat with j by lia.
Qed.

Lemma duplicateLettersOf_spec guess letter :
  letter ∈ duplicateLettersOf guess ↔ duplicated guess letter.
Proof.
  unfold duplicateLettersOf, duplicated. rewrite elem_of_list_to_set, filterFrom_elem.
  split.
  - intros (i & Hi & Hinc). simpl in Hinc. apply includes_slice in Hinc.
    destruct Hinc as (j & Hle & Hj). exists i, j. split; [lia|done].
  - intros (i & j & Hne & Hi & Hj).
    destruct (decide (i < j)%nat).
    + exists i. split; [done|]. simpl. apply includes_slice. exists j. split; [lia|done].
    + exists j. split; [done|]. simpl. apply includes_slice. exists i. split; [lia|done].
Qed.

Lemma missesOf_spec guess fb letter :
  In letter (missesOf guess fb) ↔ globallyExcluded guess fb letter.
Proof.
  unfold missesOf, globallyExcluded. rewrite in_map_iff. split.
  - intros ([g sl] & E & Hin). simpl in E. subst g.
    apply filter_In in Hin. destruct Hin as [Hin Hp].
    apply andb_true_iff in Hp. destruct Hp as [He Hd].
    apply bool_decide_eq_true in He. apply negb_true_iff, bool_decide_eq_false in Hd.
    rewrite duplicateLettersOf_spec in Hd. split; [done|].
    rewrite <- list_elem_of_In in Hin. apply list_elem_of_lookup in Hin.
    destruct Hin as [i Hi]. apply zip_lookup in Hi. destruct Hi as [Hg Hs].
    exists i. unfold charAt. split; [done|]. congruence.
  - intros (Hd & i & Hg & Hs). exists (letter, Some "e"%char). split; [done|].
    apply filter_In. split.
    + rewrite <- list_elem_of_In. apply list_elem_of_lookup. exists i.
      apply zip_lookup. split; [done|]. by symmetry.
    + apply andb_true_iff. split; [by apply bool_decide_eq_true|].
      apply negb_true_iff, bool_decide_eq_false. by rewrite duplicateLettersOf_spec.
Qed.

Lemma differs_spec a letter : differs a letter = true ↔ a ≠ Some letter.
Proof. unfold differs. rewrite negb_true_iff. apply bool_decide_eq_false. Qed.

Lemma positionalKeep_spec g sl i w :
  positionalKeep g sl i w = true ↔
  (sl = Some "x"%char → charAt w i = Some g) ∧
  (sl = Some "i"%char → In g (split w) ∧ charAt w i ≠ Some g) ∧
  (sl = Some "e"%char → charAt w i ≠ Some g).
Proof.
  unfold positionalKeep. repeat case_bool_decide; subst;
    rewrite ?andb_true_iff, ?differs_spec, ?includes_In, ?bool_decide_eq_true;
    try discriminate; intuition congruence.
Qed.

Lemma positionalAll_spec l w : ∀ index,
  positionalAll l index w = true ↔
  ∀ i g sl, l !! i = Some (g, sl) → positionalKeep g sl (index + i)%nat w = true.
Proof.
  induction l as [|[g sl] r IH]; intros index; simpl.
  - split; [intros _ i ? ? H; by rewrite lookup_nil in H | done].
  - rewrite andb_true_iff, IH. split.
    + intros [H0 Hr] [|i] g' sl' Hi; simpl in Hi.
      * injection Hi as <- <-. by rewrite Nat.add_0_r.
      * replace (index + S i)%nat with (S index + i)%nat by lia. by apply Hr.
    + intros H. split.
      * specialize (H 0%nat g sl eq_refl). by rewrite Nat.add_0_r in H.
      * intros i g' sl' Hi. specialize (H (S i) g' sl' Hi).
        by replace (index + S i)%nat with (S index + i)%nat in H by lia.
Qed.

Lemma and_iff_both (P P' Q Q' : Prop) : (P ↔ P') → (Q ↔ Q') → (P ∧ Q ↔ P' ∧ Q').
Proof. tauto. Qed.

(** The filter of [score] keeps exactly the consistent words. *)
Lemma keeps_consistent guess fb w : keeps guess fb w = true ↔ consistent guess fb w.
Proof.
  unfold keeps, consistent. rewrite andb_true_iff, forallb_forall, positionalAll_spec.
  apply and_iff_both.
  - split.
    + intros H letter Hex Hin. specialize (H letter Hin).
      apply negb_true_iff, bool_decide_eq_false in H. apply H.
      rewrite elem_of_list_to_set, list_elem_of_In. by apply missesOf_spec.
    + intros H letter Hin. apply negb_true_iff, bool_decide_eq_false.
      rewrite elem_of_list_to_set, list_elem_of_In, missesOf_spec. intros Hex.
      by apply (H letter Hex).
  - split.
    + intros H i g Hg. specialize (H i g (split fb !! i)).
      simpl in H. rewrite positionalKeep_spec in H. apply H.
      by apply zip_lookup.
    + intros H i g sl Hi. apply zip_lookup in Hi. destruct Hi as [Hg ->].
      simpl. apply positionalKeep_spec. by apply H.
Qed.

(** [score] in one piece: the three checks in their order, then the filter. *)
Lemma score_cases this guess fb :
  score guess fb this =
  if negb (String.length guess =? guessLength this)%nat
  then (Thrown GuessLengthError, this)
  else if negb (String.length fb =? guessLength this)%nat
  then (Thrown ScoreLengthError, this)
  else if negb (forallb isScoreLetter (split fb))
  then (Thrown (InvalidScoreLetters
                  (List.filter (λ l, negb (isScoreLetter l)) (split fb))), this)
  else (Returned tt, afterScore this guess fb).
Proof.
  destruct (Nat.eqb_spec (String.length guess) (guessLength this)) as [Hg|Hg]; simpl.
  - destruct (Nat.eqb_spec (String.length fb) (guessLength this)) as [Hs|Hs]; simpl.
    + destruct (forallb isScoreLetter (split fb)) eqn:Hl; simpl.
      * by apply score_run.
      * unfold score, mbind, M_bind, get. rewrite Hg, Hs, Nat.eqb_refl. cbn [negb].
        destruct (length (List.filter (λ l, negb (isScoreLetter l)) (split fb)) =? 0)%nat eqn:E;
          [|reflexivity].
        apply Nat.eqb_eq, filter_nil_forallb in E. congruence.
    + unfold score, mbind, M_bind, get. rewrite Hg, Nat.eqb_refl. cbn [negb].
      apply Nat.eqb_neq in Hs. by rewrite Hs.
  - unfold score, mbind, M_bind, get. apply Nat.eqb_neq in Hg. by rewrite Hg.
Qed.

Lemma filter_length_le {B} (p : B → bool) l : (length (List.filter p l) ≤ length l)%nat.
Proof. induction l as [|x l IH]; simpl; [done|]. destruct (p x); simpl; lia. Qed.

Lemma filter_length_lt {B} (p : B → bool) l x :
  In x l → p x = false → (length (List.filter p l) < length l)%nat.
Proof.
  induction l as [|y l IH]; simpl; [done|]. intros [->|Hin] Hp.
  - rewrite Hp. pose proof (filter_length_le p l). lia.
  - specialize (IH Hin Hp). destruct (p y); simpl; lia.
Qed.

(** C1. A valid call [score(guess, fb)] returns, and the new corpus is the
    old one restricted to the words that are consistent with the scored guess
    (no globally excluded letter, which is a letter scored Absent that is not
    duplicated in the guess; at every position the Hit, Present or Absent
    constraint, also for duplicated letters), in ranked order. *)
Theorem score_filters_corpus this guess fb :
  validCall this guess fb →
  ∃ this', score guess fb this = (Returned tt, this') ∧
    (∃ keep : string → bool,
       (∀ w, keep w = true ↔ consistent guess fb w) ∧
       corpus this' = ranked (List.filter keep (corpus this))) ∧
    (∀ w, In w (corpus this') ↔ In w (corpus this) ∧ consistent guess fb w).
Proof.
  intros Hv. exists (afterScore this guess fb). split; [by apply score_run|]. split.
  - exists (keeps guess fb). split; [apply keeps_consistent | reflexivity].
  - intros w. simpl. rewrite ranked_In, filter_In, keeps_consistent. tauto.
Qed.

Lemma score_filters_corpus_witness :
  validCall demoSolver "later" "eeixx" ∧
  ∃ this', score "later" "eeixx" demoSolver = (Returned tt, this') ∧
    (∃ keep : string → bool,
       (∀ w, keep w = true ↔ consistent "later" "eeixx" w) ∧
       corpus this' = ranked (List.filter keep (corpus demoSolver))) ∧
    (∀ w, In w (corpus this') ↔ In w (corpus demoSolver) ∧ consistent "later" "eeixx" w).
Proof.
  split; [repeat split; reflexivity|].
  apply (score_filters_corpus demoSolver "later" "eeixx"). repeat split; reflexivity.
Defined.

(** C6. A valid call never makes the corpus longer, and makes it strictly
    shorter when some word of the corpus is not consistent with the scored
    guess. *)
Theorem score_shrinks_corpus this guess fb :
  validCall this guess fb →
  ∃ this', score guess fb this = (Returned tt, this') ∧
    (length (corpus this') ≤ length (corpus this))%nat ∧
    ((∃ w, In w (corpus this) ∧ ¬ consistent guess fb w) →
     (length (corpus this') < length (corpus this))%nat).
Proof.
  intros Hv. exists (afterScore this guess fb). split; [by apply score_run|].
  simpl. rewrite ranked_length. split; [apply filter_length_le|].
  intros (w & Hin & Hno). apply (filter_length_lt _ _ w Hin).
  destruct (keeps guess fb w) eqn:E; [|done]. by apply keeps_consistent in E.
Qed.

Lemma score_shrinks_corpus_witness :
  validCall demoSolver "later" "eeixx" ∧
  ∃ this', score "later" "eeixx" demoSolver = (Returned tt, this') ∧
    (length (corpus this') ≤ length (corpus demoSolver))%nat ∧
    ((∃ w, In w (corpus demoSolver) ∧ ¬ consistent "later" "eeixx" w) →
     (length (corpus this') < length (corpus demoSolver))%nat).
Proof.
  split; [repeat split; reflexivity|].
  apply (score_shrinks_corpus demoSolver "later" "eeixx"). repeat split; reflexivity.
Defined.

(** What the code tests: [score] throws exactly when the guess or the
    feedback has not the configured length or the feedback has a letter that
    is not one of the lower-case x, e, i (the check reads the feedback as
    given, not its lowered form); a call that throws leaves the solver as it
    was. *)
Lemma score_throws_iff this guess fb :
  ((∃ e, fst (score guess fb this) = Thrown e) ↔
   String.length guess ≠ guessLength this ∨
   String.length fb ≠ guessLength this ∨
   ∃ l, In l (split fb) ∧ l ≠ "x"%char ∧ l ≠ "e"%char ∧ l ≠ "i"%char) ∧
  (∀ e, fst (score guess fb this) = Thrown e → snd (score guess fb this) = this).
Proof.
  rewrite score_cases.
  destruct (Nat.eqb_spec (String.length guess) (guessLength this)) as [Hg|Hg]; simpl.
  2: { split; [|done]. split; [auto | eauto]. }
  destruct (Nat.eqb_spec (String.length fb) (guessLength this)) as [Hs|Hs]; simpl.
  2: { split; [|done]. split; [auto | eauto]. }
  destruct (forallb isScoreLetter (split fb)) eqn:Hl; simpl.
  - split; [|done]. split; [by intros [e ?]|].
    intros [?|[?|(l & Hin & Hx & He & Hi)]]; try done.
    rewrite forallb_forall in Hl. apply Hl, isScoreLetter_spec in Hin. tauto.
  - split; [|done]. split; [|eauto]. intros _. right. right.
    assert (¬ ∀ l, In l (split fb) → isScoreLetter l = true) as Hn.
    { rewrite <- forallb_forall. congruence. }
    induction (split fb) as [|l r IH]; simpl in *; [done|].
    destruct (isScoreLetter l) eqn:El; simpl in *.
    + destruct (IH Hl) as (l' & ? & ?); [|eauto].
      intros H. apply Hn. intros l' [<-|?]; auto.
    + exists l. split; [auto|].
      rewrite <- not_true_iff_false, isScoreLetter_spec in El. tauto.
Qed.

Lemma recognized_of_scoreLetter l : isScoreLetter l = true → recognized l = true.
Proof. intros H. unfold recognized. by rewrite lowerLetter_scoreLetter. Qed.

(** C5. The recognized alphabet is x, e, i in either case. [score] throws
    whenever the guess or the feedback has not the configured length or the
    feedback has a letter outside that alphabet, and every call that throws
    leaves the corpus and the history as they were. But it does not throw
    only then: on a constructed solver, the guess later with the feedback
    EEXII, both of the configured length and the feedback all of recognized
    letters, throws as well. *)
Theorem score_throws_on_recognized_feedback :
  (∀ this guess fb,
     String.length guess ≠ guessLength this ∨
     String.length fb ≠ guessLength this ∨
     (∃ l, In l (split fb) ∧ recognized l = false) →
     ∃ e, fst (score guess fb this) = Thrown e) ∧
  (∀ this guess fb e,
     fst (score guess fb this) = Thrown e →
     snd (score guess fb this) = this ∧
     corpus (snd (score guess fb this)) = corpus this ∧
     guessesAndScores (snd (score guess fb this)) = guessesAndScores this) ∧
  (∀ words sw lg,
     String.length "later" = guessLength (newWordleSolver words sw lg) ∧
     String.length "EEXII" = guessLength (newWordleSolver words sw lg) ∧
     forallb recognized (split "EEXII") = true ∧
     score "later" "EEXII" (newWordleSolver words sw lg) =
       (Thrown (InvalidScoreLetters ["E"; "E"; "X"; "I"; "I"]%char),
        newWordleSolver words sw lg)).
Proof.
  split; [|split].
  - intros this guess fb H. apply (proj1 (score_throws_iff this guess fb)).
    destruct H as [H|[H|(l & Hin & Hr)]]; [by left|by right; left|].
    right. right. exists l. split; [done|].
    assert (Hn : isScoreLetter l ≠ true).
    { intros Hs. apply recognized_of_scoreLetter in Hs. congruence. }
    rewrite isScoreLetter_spec in Hn. tauto.
  - intros this guess fb e H.
    pose proof (proj2 (score_throws_iff this guess fb) e H) as E.
    by rewrite E.
  - intros words sw lg. rewrite newWordleSolver_eq.
    split; [reflexivity|]. split; [reflexivity|]. split; [reflexivity|].
    by rewrite score_cases.
Qed.

Lemma score_throws_on_recognized_feedback_witness :
  (String.length "late" ≠ guessLength demoSolver ∨
   String.length "eexi" ≠ guessLength demoSolver ∨
   (∃ l, In l (split "eexi") ∧ recognized l = false)) ∧
  ∃ e, fst (score "late" "eexi" demoSolver) = Thrown e.
Proof.
  assert (H : String.length "late" ≠ guessLength demoSolver ∨
              String.length "eexi" ≠ guessLength demoSolver ∨
              (∃ l, In l (split "eexi") ∧ recognized l = false)).
  { left. vm_compute. discriminate. }
  split; [exact H|].
  exact (proj1 score_throws_on_recognized_feedback demoSolver "late" "eexi" H).
Defined.

(** C4. An upper-case feedback is lowered by [toLowerCase], but the check of
    its letters runs on the string as given: the call throws. *)
Theorem score_rejects_upper_case corpus sw lg :
  forallb isScoreLetter (split (toLowerCase "EEXII")) = true ∧
  score "later" "EEXII" (newWordleSolver corpus sw lg) =
    (Thrown (InvalidScoreLetters ["E"; "E"; "X"; "I"; "I"]%char),
     newWordleSolver corpus sw lg).
Proof.
  split; [reflexivity|]. rewrite score_cases. by rewrite newWordleSolver_eq.
Qed.

(** C3. [letterFrequency] returns, for a letter that occurs, one more than
    its number of occurrences (in all words, or at the given index); for the
    corpus of the single word abcde the letter a is mapped to 2, not to 1. *)
Theorem letterFrequency_one_too_many :
  (∀ this atIndex, ∃ t,
     letterFrequency atIndex this = (Returned t, this) ∧
     ∀ c, t !! c =
          if (occurrences atIndex c (corpus this) =? 0)%nat then None
          else Some (Z.of_nat (occurrences atIndex c (corpus this)) + 1)) ∧
  (∃ t, letterFrequency None (newWordleSolver ["abcde"] None false)
        = (Returned t, newWordleSolver ["abcde"] None false) ∧
        timesIn "a" ["abcde"] = 1%nat ∧ t !! "a"%char = Some 2) ∧
  (∃ t, letterFrequency (Some 0%nat) (newWordleSolver ["abcde"] None false)
        = (Returned t, newWordleSolver ["abcde"] None false) ∧
        wordsWithAt "a" 0 ["abcde"] = 1%nat ∧ t !! "a"%char = Some 2).
Proof.
  split; [|split].
  - intros this atIndex. eexists. split; [reflexivity|].
    intros c. apply letterFrequencyOf_lookup.
  - eexists. split; [reflexivity|]. split; reflexivity.
  - eexists. split; [reflexivity|]. split; reflexivity.
Qed.

Lemma sumFrequencies_NaN (t : gmap ascii Z) (letters : list ascii) : ∀ acc,
  fold_left (λ acc letter, addLookup acc (t !! letter)) letters acc = NaN ↔
  acc = NaN ∨ ∃ letter, In letter letters ∧ t !! letter = None.
Proof.
  induction letters as [|l r IH]; intros acc; simpl.
  - split; [auto | intros [?|(? & [] & _)]; done].
  - rewrite IH. split.
    + intros [H|(letter & Hin & Hn)]; [|right; eauto].
      destruct acc as [z|]; [|by left]. right. exists l. split; [auto|].
      destruct (t !! l); [discriminate|done].
    + intros [->|(letter & [<-|Hin] & Hn)]; [by left| |right; eauto].
      left. rewrite Hn. by destruct acc.
Qed.

Lemma timesIn_zero letter words :
  timesIn letter words = 0%nat ↔ ∀ w, In w words → ¬ In letter (split w).
Proof.
  unfold timesIn. induction words as [|w ws IH]; simpl; [by split|].
  rewrite Nat.eq_add_0, IH, <- count_occ_not_In. split.
  - intros [H0 Hr] w' [<-|Hin]; [done|by apply Hr].
  - intros H. split; [apply H; auto|]. intros w' Hin. apply H. auto.
Qed.

Lemma letterFrequencyOf_None words letter :
  letterFrequencyOf words None !! letter = None ↔
  ∀ w, In w words → ¬ In letter (split w).
Proof.
  rewrite letterFrequencyOf_lookup, <- timesIn_zero. simpl.
  destruct (Nat.eqb_spec (timesIn letter words) 0); split; done.
Qed.

(** C9. [letterFrequencyScore(word)] is [NaN] exactly when some letter of the
    word occurs in no word of the corpus, and a number otherwise; the solver
    is not changed. *)
Theorem letterFrequencyScore_NaN this word :
  ∃ v, letterFrequencyScore word this = (Returned v, this) ∧
    (v = NaN ↔
     ∃ letter, In letter (split word) ∧
               ∀ w, In w (corpus this) → ¬ In letter (split w)).
Proof.
  eexists. split; [reflexivity|]. unfold sumFrequencies.
  rewrite sumFrequencies_NaN. split.
  - intros [?|(letter & Hin & Hn)]; [done|]. exists letter. split; [done|].
    by apply letterFrequencyOf_None.
  - intros (letter & Hin & Hn). right. exists letter. split; [done|].
    by apply letterFrequencyOf_None.
Qed.

Lemma scoreGuess_lookup guess targetWord i g :
  charAt guess i = Some g →
  charAt (scoreGuess guess targetWord) i =
  Some (if bool_decide (charAt targetWord i = Some g) then "x"%char
        else if includes targetWord g then "i"%char else "e"%char).
Proof.
  unfold charAt, scoreGuess, zip. intros Hg. rewrite split_join, list_lookup_fmap.
  rewrite list_lookup_imap, Hg. simpl.
  repeat case_bool_decide; try done; congruence.
Qed.

(** C8. For a guess and a target of equal length, [scoreGuess] gives one
    letter per position: x where the guess has the letter of the target, else
    i where the letter of the guess occurs in the target, else e; and
    [scoreGuess(w, w)] is all x. *)
Theorem scoreGuess_positions guess targetWord :
  String.length guess = String.length targetWord →
  String.length (scoreGuess guess targetWord) = String.length guess ∧
  (∀ i g, charAt guess i = Some g →
     (charAt targetWord i = Some g →
      charAt (scoreGuess guess targetWord) i = Some "x"%char) ∧
     (charAt targetWord i ≠ Some g → In g (split targetWord) →
      charAt (scoreGuess guess targetWord) i = Some "i"%char) ∧
     (charAt targetWord i ≠ Some g → ¬ In g (split targetWord) →
      charAt (scoreGuess guess targetWord) i = Some "e"%char)) ∧
  (guess = targetWord →
   scoreGuess guess targetWord = join (replicate (String.length guess) "x"%char)).
Proof.
  intros Hlen. split; [|split].
  - unfold scoreGuess, zip. rewrite <- !length_split, split_join.
    by rewrite length_map, length_imap.
  - intros i g Hg. rewrite (scoreGuess_lookup _ _ _ _ Hg).
    split; [|split].
    + intros H. by rewrite bool_decide_eq_true_2.
    + intros H Hin. rewrite bool_decide_eq_false_2 by done.
      apply includes_In in Hin. by rewrite Hin.
    + intros H Hin. rewrite bool_decide_eq_false_2 by done.
      rewrite <- includes_In in Hin. by destruct (includes targetWord g).
  - intros ->. rewrite <- length_split. unfold scoreGuess. f_equal.
    apply list_eq. intros i. unfold zip.
    rewrite list_lookup_fmap, list_lookup_imap.
    destruct (split targetWord !! i) as [g|] eqn:E; simpl.
    + rewrite bool_decide_eq_true_2 by done.
      symmetry. apply lookup_replicate_2. by apply lookup_lt_Some in E.
    + symmetry. apply lookup_replicate_None. by apply lookup_ge_None in E.
Qed.

Lemma scoreGuess_positions_witness :
  String.length "later" = String.length "other" ∧
  String.length (scoreGuess "later" "other") = String.length "later" ∧
  scoreGuess "later" "other" = "eeixx".
Proof.
  split; [reflexivity|].
  split; [apply (scoreGuess_positions "later" "other"); reflexivity | reflexivity].
Defined.

(** ** The top of the ranking *)

Lemma Sorted_head_first {B} (R : B → B → Prop) (P : B → Prop) :
  (∀ x, R x x) →
  (∀ x y z, P x → P y → P z → R x y → R y z → R x z) →
  ∀ l, Sorted R l → Forall P l →
  ∀ x r, l = x :: r → ∀ y, In y l → R x y.
Proof.
  intros Hrefl Htrans. induction 1 as [|a l Hs IH Hhd]; intros HP x r E y Hin; [done|].
  injection E as <- <-. destruct Hin as [<-|Hin]; [apply Hrefl|].
  inversion HP as [|? ? Pa Pl]; subst.
  destruct Hhd as [|b l Hab]; [done|].
  inversion Pl as [|? ? Pb _]; subst.
  apply (Htrans a b y Pa Pb).
  - rewrite Forall_forall in Pl. apply Pl. by apply list_elem_of_In.
  - exact Hab.
  - by apply (IH Pl b l).
Qed.

Lemma byFrequency_refl t a : isPositive (byFrequency t a a) = false.
Proof.
  unfold byFrequency. simpl. rewrite Z.sub_diag. simpl.
  destruct (sumFrequencies t a); simpl; [|done]. rewrite Z.sub_diag. done.
Qed.

Lemma byFrequency_trans t a b c :
  (∃ z, sumFrequencies t a = Num z) →
  (∃ z, sumFrequencies t b = Num z) →
  (∃ z, sumFrequencies t c = Num z) →
  isPositive (byFrequency t a b) = false →
  isPositive (byFrequency t b c) = false →
  isPositive (byFrequency t a c) = false.
Proof.
  intros [fa Ha] [fb Hb] [fc Hc]. unfold byFrequency. simpl.
  rewrite Ha, Hb, Hc. simpl.
  destruct (Z.eqb_spec (uniqs b - uniqs a) 0), (Z.eqb_spec (uniqs c - uniqs b) 0),
    (Z.eqb_spec (uniqs c - uniqs a) 0); simpl; rewrite ?Z.ltb_ge, ?Z.ltb_lt; lia.
Qed.

Lemma sumFrequencies_corpus words w :
  In w words → ∃ z, sumFrequencies (letterFrequencyOf words None) w = Num z.
Proof.
  intros Hin. destruct (sumFrequencies _ w) as [z|] eqn:E; [eauto|].
  unfold sumFrequencies in E. apply sumFrequencies_NaN in E.
  destruct E as [?|(letter & Hl & Hn)]; [done|].
  rewrite letterFrequencyOf_None in Hn. by destruct (Hn w Hin).
Qed.

Lemma ranked_top words top r :
  ranked words = top :: r →
  ∀ w, In w words → isPositive (byFrequency (letterFrequencyOf words None) top w) = false.
Proof.
  intros E w Hin.
  apply (Sorted_head_first (inOrder (byFrequency (letterFrequencyOf words None)))
           (λ w, In w words)) with (l := ranked words) (r := r).
  - intros x. apply byFrequency_refl.
  - intros x y z Hx Hy Hz. apply byFrequency_trans; by apply sumFrequencies_corpus.
  - apply sortBy_Sorted, byFrequency_sign.
  - apply Forall_forall. intros x Hx. rewrite list_elem_of_In in Hx.
    by rewrite ranked_In in Hx.
  - exact E.
  - by apply ranked_In.
Qed.

(** C7. [getBestGuess] returns the starting word while no guess has been
    scored; a solver built from an empty corpus without a starting word has
    none, so its first answer is null. After a scored guess it ranks the
    corpus again and returns its first word, which no word of the corpus
    outranks, or null when the corpus is empty. *)
Theorem getBestGuess_result :
  (∀ this, guessesAndScores this = [] →
     getBestGuess this = (Returned (startingWord this), this)) ∧
  (∀ words sw lg,
     startingWord (newWordleSolver words sw lg) =
     match sw with Some w => Some w | None => ranked words !! 0%nat end) ∧
  (∀ lg, startingWord (newWordleSolver [] None lg) = None ∧
     getBestGuess (newWordleSolver [] None lg) = (Returned None, newWordleSolver [] None lg)) ∧
  (∀ this, guessesAndScores this ≠ [] →
     getBestGuess this = (Returned (ranked (corpus this) !! 0%nat),
                          withCorpus (ranked (corpus this)) this) ∧
     (corpus this = [] → ranked (corpus this) !! 0%nat = None) ∧
     (corpus this ≠ [] →
      ∃ top, ranked (corpus this) !! 0%nat = Some top ∧ In top (corpus this) ∧
        ∀ w, In w (corpus this) →
          isPositive (byFrequency (letterFrequencyOf (corpus this) None) top w) = false)).
Proof.
  split; [|split; [|split]].
  - intros this H. unfold getBestGuess, mbind, M_bind, get. by rewrite H.
  - intros words sw lg. by rewrite newWordleSolver_eq.
  - intros lg. split; reflexivity.
  - intros this H. split; [|split].
    + unfold getBestGuess, mbind, M_bind, get.
      destruct (guessesAndScores this); [done|]. reflexivity.
    + by intros ->.
    + intros Hne. destruct (ranked (corpus this)) as [|top r] eqn:E.
      * apply (f_equal length) in E. rewrite ranked_length in E.
        by destruct (corpus this).
      * exists top. split; [done|]. split.
        -- apply ranked_In. rewrite E. by left.
        -- by apply (ranked_top _ _ r).
Qed.

Lemma getBestGuess_result_witness :
  guessesAndScores (afterScore demoSolver "later" "eeixx") ≠ [] ∧
  getBestGuess (afterScore demoSolver "later" "eeixx") =
    (Returned (Some "other"), afterScore demoSolver "later" "eeixx").
Proof.
  split; [done|].
  destruct getBestGuess_result as (_ & _ & _ & H).
  destruct (H (afterScore demoSolver "later" "eeixx")) as (E & _); [done|].
  etrans; [exact E | reflexivity].
Defined.

(** C10. Without a scored guess, [getSecondGuess] returns the corpus as it
    is, in its present order, and leaves the solver alone. *)
Theorem getSecondGuess_without_history this :
  guessesAndScores this = [] →
  getSecondGuess this = (Returned (corpus this), this).
Proof. intros H. unfold getSecondGuess, mbind, M_bind, get. by rewrite H. Qed.

Lemma getSecondGuess_without_history_witness :
  guessesAndScores (mkSolver ["aaaaa"; "abcde"] None [] false 5) = [] ∧
  ranked ["aaaaa"; "abcde"] = ["abcde"; "aaaaa"] ∧
  getSecondGuess (mkSolver ["aaaaa"; "abcde"] None [] false 5) =
    (Returned ["aaaaa"; "abcde"], mkSolver ["aaaaa"; "abcde"] None [] false 5).
Proof.
  split; [reflexivity|]. split; [reflexivity|].
  apply (getSecondGuess_without_history (mkSolver ["aaaaa"; "abcde"] None [] false 5)).
  reflexivity.
Defined.

Lemma afterHistory_nil this : afterHistory this [] = this.
Proof. destruct this. unfold afterHistory; simpl. by rewrite app_nil_r. Qed.

Lemma afterHistory_cons this guess fb history :
  afterHistory (afterScore this guess fb) history = afterHistory this ((guess, fb) :: history).
Proof. unfold afterHistory, afterScore; simpl. by rewrite <- app_assoc. Qed.

Lemma replay_run history : ∀ this,
  Forall (λ '(guess, fb), validCall this guess fb) history →
  replay history this = (Returned tt, afterHistory this history).
Proof.
  induction history as [|[guess fb] r IH]; intros this Hv.
  - simpl. by rewrite afterHistory_nil.
  - inversion Hv as [|? ? H1 Hr]; subst. cbn [replay]. unfold mbind, M_bind.
    rewrite (score_run _ _ _ H1). rewrite IH; [by rewrite afterHistory_cons|].
    eapply Forall_impl; [exact Hr|]. intros [g f] H. exact H.
Qed.

Lemma withCorpus_ranked this :
  ranked (corpus this) = corpus this → withCorpus (ranked (corpus this)) this = this.
Proof. intros E. rewrite E. by destruct this. Qed.

Lemma getSecondGuess_state this : snd (getSecondGuess this) = this.
Proof.
  unfold getSecondGuess, mbind, M_bind, get.
  destruct (length (guessesAndScores this) =? 0)%nat; [done|].
  destruct (last (guessesAndScores this)) as [[g f]|]; [|done].
  rewrite getSolutions_run. reflexivity.
Qed.

Lemma getSecondGuess_returns this : ∃ l, fst (getSecondGuess this) = Returned l.
Proof.
  unfold getSecondGuess, mbind, M_bind, get.
  destruct (length (guessesAndScores this) =? 0)%nat; [by eexists|].
  destruct (last (guessesAndScores this)) as [[g f]|]; [|by eexists].
  rewrite getSolutions_run. by eexists.
Qed.

Lemma perform_read c this :
  ranked (corpus this) = corpus this →
  (∀ guess fb, c ≠ CallScore guess fb) →
  perform c this = (Returned tt, this).
Proof.
  intros E Hc. destruct c as [g f| | | |w]; simpl.
  - by destruct (Hc g f).
  - unfold getBestGuess, mbind, M_bind, get.
    destruct (length (guessesAndScores this) =? 0)%nat; [done|].
    rewrite getSolutions_run. by rewrite withCorpus_ranked.
  - unfold mbind, M_bind. rewrite getSolutions_run. by rewrite withCorpus_ranked.
  - unfold mbind, M_bind. pose proof (getSecondGuess_state this) as Hs.
    destruct (getSecondGuess_returns this) as [l Hl].
    destruct (getSecondGuess this) as [o s']. simpl in *. by subst.
  - reflexivity.
Qed.

Lemma session_run calls : ∀ this,
  ranked (corpus this) = corpus this →
  Forall (λ '(guess, fb), validCall this guess fb) (scoresOf calls) →
  session calls this = (Returned tt, afterHistory this (scoresOf calls)).
Proof.
  induction calls as [|c r IH]; intros this E Hv.
  - simpl. by rewrite afterHistory_nil.
  - cbn [session]. unfold mbind, M_bind.
    assert (Hc : (∃ guess fb, c = CallScore guess fb) ∨
                 ((∀ guess fb, c ≠ CallScore guess fb) ∧ scoresOf (c :: r) = scoresOf r)).
    { destruct c; [left; eauto|right..]; by split. }
    destruct Hc as [(g & f & ->)|[Hn Hs]].
    + simpl in Hv. inversion Hv as [|? ? H1 Hr]; subst. simpl.
      rewrite (score_run _ _ _ H1). rewrite IH.
      * by rewrite afterHistory_cons.
      * simpl. apply ranked_idempotent.
      * eapply Forall_impl; [exact Hr|]. intros [g' f'] H. exact H.
    + rewrite Hs in *. rewrite (perform_read c this E Hn). by rewrite IH.
Qed.

(** C2. A solver built from a corpus and used incrementally (scored guesses,
    with any reads of the solver in between) ends with the corpus, words and
    order, that a fresh solver built from the same corpus has after the
    recorded history is replayed on it by [score], record by record. *)
Theorem incremental_equals_replay words sw lg sw' lg' calls :
  Forall (λ '(guess, fb), wellFormed 5 guess fb) (scoresOf calls) →
  ∃ s r,
    session calls (newWordleSolver words sw lg) = (Returned tt, s) ∧
    guessesAndScores s = scoresOf calls ∧
    replay (guessesAndScores s) (newWordleSolver words sw' lg') = (Returned tt, r) ∧
    corpus r = corpus s ∧
    guessesAndScores r = guessesAndScores s.
Proof.
  intros Hv.
  exists (afterHistory (newWordleSolver words sw lg) (scoresOf calls)),
         (afterHistory (newWordleSolver words sw' lg') (scoresOf calls)).
  assert (Hh : guessesAndScores (afterHistory (newWordleSolver words sw lg) (scoresOf calls))
               = scoresOf calls).
  { by rewrite newWordleSolver_eq. }
  split; [|split; [exact Hh|split; [|split]]].
  - apply session_run.
    + rewrite newWordleSolver_eq. apply ranked_idempotent.
    + eapply Forall_impl; [exact Hv|]. intros [g f] H.
      unfold validCall. by rewrite newWordleSolver_eq.
  - rewrite Hh. apply replay_run.
    eapply Forall_impl; [exact Hv|]. intros [g f] H.
    unfold validCall. by rewrite newWordleSolver_eq.
  - by rewrite !newWordleSolver_eq.
  - by rewrite !newWordleSolver_eq.
Qed.

Lemma incremental_equals_replay_witness :
  Forall (λ '(guess, fb), wellFormed 5 guess fb) (scoresOf demoCalls) ∧
  ∃ s r,
    session demoCalls (newWordleSolver demoWords None false) = (Returned tt, s) ∧
    guessesAndScores s = scoresOf demoCalls ∧
    replay (guessesAndScores s) (newWordleSolver demoWords (Some "later") true)
      = (Returned tt, r) ∧
    corpus r = corpus s ∧
    guessesAndScores r = guessesAndScores s.
Proof.
  assert (H : Forall (λ '(guess, fb), wellFormed 5 guess fb) (scoresOf demoCalls)).
  { repeat (constructor; [repeat split; reflexivity|]). constructor. }
  split; [exact H|].
  exact (incremental_equals_replay demoWords None false (Some "later") true demoCalls H).
Defined.

(** Replaying on the same solver after [reset], which does not rank the
    corpus as the constructor does, can leave the same words in another
    order. *)
Example replay_after_reset_order :
  let words := ["abcde"; "fghij"; "fghik"] in
  let history := [("zzzzk", "eeeee")] in
  let s := snd (replay history (newWordleSolver words None false)) in
  corpus s = ["fghij"; "abcde"] ∧
  corpus (snd ((reset words;; replay (guessesAndScores s)) s)) = ["abcde"; "fghij"].
Proof. split; reflexivity. Qed.

(** * Further properties of the code *)

(** ** utils *)

(** X1. [zip] returns one pair per element of its first list, whatever the
    length of the second: a position past the end of the second list is
    paired with undefined, and surplus elements of the second list are
    dropped. *)
Theorem zip_first_list_decides {X Y} (xs : list X) (ys : list Y) :
  length (zip xs ys) = length xs ∧
  (∀ i x, xs !! i = Some x → zip xs ys !! i = Some (x, ys !! i)) ∧
  (∀ i x, xs !! i = Some x → (length ys ≤ i)%nat → zip xs ys !! i = Some (x, None)) ∧
  (∀ i, (length xs ≤ i)%nat → zip xs ys !! i = None).
Proof.
  unfold zip. split; [apply length_imap|]. split; [|split].
  - intros i x H. by rewrite list_lookup_imap, H.
  - intros i x H Hle. rewrite list_lookup_imap, H. simpl.
    by rewrite (lookup_ge_None_2 ys i).
  - intros i Hle. rewrite list_lookup_imap. by rewrite (lookup_ge_None_2 xs i).
Qed.

Lemma zip_first_list_decides_witness :
  zip ["a"; "b"; "c"]%char [1; 2] = [("a"%char, Some 1); ("b"%char, Some 2); ("c"%char, None)] ∧
  zip ["a"; "b"; "c"]%char [1; 2] !! 2%nat = Some ("c"%char, None) ∧
  zip ["a"]%char [1; 2] !! 1%nat = None.
Proof.
  split; [reflexivity|]. split.
  - apply (proj1 (proj2 (proj2 (zip_first_list_decides ["a"; "b"; "c"]%char [1; 2])))
             2%nat "c"%char); [reflexivity | simpl; lia].
  - apply (proj2 (proj2 (proj2 (zip_first_list_decides ["a"]%char [1; 2]))) 1%nat).
    simpl; lia.
Defined.

(** ** The ranking *)

Lemma Sorted_pairs {B} (R : B → B → Prop) (P : B → Prop) :
  (∀ x, R x x) →
  (∀ x y z, P x → P y → P z → R x y → R y z → R x z) →
  ∀ l, Sorted R l → Forall P l →
  ∀ i j x y, l !! i = Some x → l !! j = Some y → (i < j)%nat → R x y.
Proof.
  intros Hrefl Htrans. induction l as [|a l IH]; intros Hs HP i j x y Hi Hj Hlt.
  - by rewrite lookup_nil in Hi.
  - destruct j as [|j]; [lia|]. simpl in Hj. destruct i as [|i]; simpl in Hi.
    + injection Hi as ->.
      apply (Sorted_head_first R P Hrefl Htrans (x :: l) Hs HP x l eq_refl).
      right. rewrite <- list_elem_of_In. apply list_elem_of_lookup. eauto.
    + apply Sorted_inv in Hs. destruct Hs as [Hs _].
      inversion HP; subst. apply (IH Hs) with (i := i) (j := j); auto. lia.
Qed.

(** X2. After ranking, a word stands before another only if it has at least
    as many distinct letters, and, when both have the same number of distinct
    letters, at least as high a sum of letter frequencies; the sums of corpus
    words are numbers, never [NaN]. *)
Theorem ranked_is_ordered words i j a b :
  ranked words !! i = Some a → ranked words !! j = Some b → (i < j)%nat →
  uniqs b ≤ uniqs a ∧
  ∃ fa fb,
    sumFrequencies (letterFrequencyOf words None) a = Num fa ∧
    sumFrequencies (letterFrequencyOf words None) b = Num fb ∧
    (uniqs a = uniqs b → fb ≤ fa).
Proof.
  intros Hi Hj Hlt.
  assert (Ha : In a words).
  { apply ranked_In. rewrite <- list_elem_of_In. apply list_elem_of_lookup. eauto. }
  assert (Hb : In b words).
  { apply ranked_In. rewrite <- list_elem_of_In. apply list_elem_of_lookup. eauto. }
  destruct (sumFrequencies_corpus words a Ha) as [fa Hfa].
  destruct (sumFrequencies_corpus words b Hb) as [fb Hfb].
  assert (Hord : inOrder (byFrequency (letterFrequencyOf words None)) a b).
  { apply (Sorted_pairs (inOrder (byFrequency (letterFrequencyOf words None)))
             (λ w, In w words)) with (l := ranked words) (i := i) (j := j); auto.
    - intros x. apply byFrequency_refl.
    - intros x y z Hx Hy Hz. apply byFrequency_trans; by apply sumFrequencies_corpus.
    - apply sortBy_Sorted, byFrequency_sign.
    - apply Forall_forall. intros x Hx. rewrite list_elem_of_In in Hx.
      by rewrite ranked_In in Hx. }
  unfold inOrder, byFrequency in Hord. simpl in Hord. rewrite Hfa, Hfb in Hord.
  simpl in Hord.
  destruct (Z.eqb_spec (uniqs b - uniqs a) 0) as [E|E]; simpl in Hord;
    apply Z.ltb_ge in Hord.
  - split; [lia|]. exists fa, fb. repeat split; auto. lia.
  - split; [lia|]. exists fa, fb. repeat split; auto. lia.
Qed.

Lemma ranked_is_ordered_witness :
  ranked ["aabbc"; "tower"; "other"] !! 0%nat = Some "tower" ∧
  ranked ["aabbc"; "tower"; "other"] !! 2%nat = Some "aabbc" ∧
  uniqs "aabbc" ≤ uniqs "tower".
Proof.
  split; [reflexivity|]. split; [reflexivity|].
  apply (ranked_is_ordered ["aabbc"; "tower"; "other"] 0 2 "tower" "aabbc");
    [reflexivity | reflexivity | lia].
Defined.

Lemma getBestGuess_run this :
  getBestGuess this =
  if (length (guessesAndScores this) =? 0)%nat
  then (Returned (startingWord this), this)
  else (Returned (ranked (corpus this) !! 0%nat), withCorpus (ranked (corpus this)) this).
Proof.
  unfold getBestGuess, mbind, M_bind, get.
  by destruct (length (guessesAndScores this) =? 0)%nat.
Qed.

(** X3. Asking for the best guess twice in a row gives the same answer, and
    the second call leaves the solver as the first call left it. *)
Theorem getBestGuess_twice this :
  fst (getBestGuess (snd (getBestGuess this))) = fst (getBestGuess this) ∧
  snd (getBestGuess (snd (getBestGuess this))) = snd (getBestGuess this).
Proof.
  rewrite (getBestGuess_run this).
  destruct (length (guessesAndScores this) =? 0)%nat eqn:E; cbn [fst snd].
  - by rewrite getBestGuess_run, E.
  - rewrite getBestGuess_run. unfold withCorpus.
    cbn [corpus guessesAndScores startingWord logging guessLength fst snd].
    rewrite E. cbn [fst snd]. by rewrite ranked_idempotent.
Qed.

(** ** The filters *)

Lemma runStep_run step this :
  runStep step this =
  (Returned tt, withCorpus (List.filter (stepTest step) (corpus this)) this).
Proof. by destruct step. Qed.

Lemma stepTest_spec step word : stepTest step word = true ↔ stepKeeps step word.
Proof.
  destruct step; simpl.
  - rewrite forallb_forall. split.
    + intros H letter Hin Hex. specialize (H letter Hin).
      apply negb_true_iff, bool_decide_eq_false in H. apply H.
      by rewrite elem_of_list_to_set, list_elem_of_In.
    + intros H letter Hin. apply negb_true_iff, bool_decide_eq_false.
      rewrite elem_of_list_to_set, list_elem_of_In. by apply H.
  - apply differs_spec.
  - apply bool_decide_eq_true.
  - by rewrite andb_true_iff, differs_spec, includes_In.
Qed.

Lemma filter_ext_bool {B} (p q : B → bool) l :
  (∀ x, p x = q x) → List.filter p l = List.filter q l.
Proof. intros H. induction l as [|x l IH]; simpl; [done|]. by rewrite H, IH. Qed.

(** X4. Each of the four filters keeps exactly the words that pass its
    test, in their order; applying a filter twice is the same as applying it
    once, and two filters give the same solver in either order. *)
Theorem filters_compose a b this :
  (∃ kept, runStep a this = (Returned tt, withCorpus kept this) ∧
     sublist kept (corpus this) ∧
     ∀ w, In w kept ↔ In w (corpus this) ∧ stepKeeps a w) ∧
  (runStep a;; runStep a) this = runStep a this ∧
  (runStep a;; runStep b) this = (runStep b;; runStep a) this.
Proof.
  split; [|split].
  - exists (List.filter (stepTest a) (corpus this)). split; [apply runStep_run|].
    split.
    + induction (corpus this) as [|w l IH]; simpl; [constructor|].
      destruct (stepTest a w); by constructor.
    + intros w. by rewrite filter_In, stepTest_spec.
  - unfold mbind, M_bind. rewrite (runStep_run a this). cbn beta iota.
    rewrite !runStep_run. unfold withCorpus; simpl.
    rewrite filter_filter. do 2 f_equal. apply filter_ext_bool.
    intros w. by destruct (stepTest a w).
  - unfold mbind, M_bind. rewrite (runStep_run a this), (runStep_run b this).
    cbn beta iota. rewrite !runStep_run.
    unfold withCorpus; simpl. rewrite !filter_filter. do 2 f_equal.
    apply filter_ext_bool. intros w. apply andb_comm.
Qed.

(** ** Calls never add words *)

Lemma count_occ_filter_le (p : string → bool) l w :
  (count_occ string_dec (List.filter p l) w ≤ count_occ string_dec l w)%nat.
Proof.
  induction l as [|x l IH]; simpl; [lia|].
  destruct (p x); simpl; destruct (string_dec x w); lia.
Qed.

Lemma count_occ_ranked l w :
  count_occ string_dec (ranked l) w = count_occ string_dec l w.
Proof. by apply Permutation_count_occ, ranked_Permutation. Qed.

Lemma snd_then_ret {A} (m : M A) this : snd ((m;; mret tt) this) = snd (m this).
Proof. unfold mbind, M_bind. by destruct (m this) as [[a|e] s]. Qed.

Lemma fst_then_ret {A} (m : M A) this :
  fst ((m;; mret tt) this) =
  match fst (m this) with Returned _ => Returned tt | Thrown e => Thrown e end.
Proof. unfold mbind, M_bind. by destruct (m this) as [[a|e] s]. Qed.

Lemma perform_never_adds c this :
  (∀ w, (count_occ string_dec (corpus (snd (perform c this))) w
         ≤ count_occ string_dec (corpus this) w)%nat) ∧
  (∃ more, guessesAndScores (snd (perform c this)) = (guessesAndScores this ++ more)%list ∧
           (length more ≤ length (scoresOf [c]))%nat) ∧
  startingWord (snd (perform c this)) = startingWord this ∧
  logging (snd (perform c this)) = logging this ∧
  guessLength (snd (perform c this)) = guessLength this.
Proof.
  assert (Hsame : ∀ s, corpus s = corpus this ∨ corpus s = ranked (corpus this) →
            guessesAndScores s = guessesAndScores this →
            startingWord s = startingWord this → logging s = logging this →
            guessLength s = guessLength this →
            (∀ w, (count_occ string_dec (corpus s) w
                   ≤ count_occ string_dec (corpus this) w)%nat) ∧
            (∃ more, guessesAndScores s = (guessesAndScores this ++ more)%list ∧
                     (length more ≤ length (scoresOf [c]))%nat) ∧
            startingWord s = startingWord this ∧ logging s = logging this ∧
            guessLength s = guessLength this).
  { intros s Hc Hh Hs Hl Hg. split; [|split; [|done]].
    - intros w. destruct Hc as [->| ->]; [lia|]. by rewrite count_occ_ranked.
    - exists []. rewrite app_nil_r. split; [done|]. simpl. lia. }
  destruct c as [g f| | | |word]; simpl perform.
  - rewrite score_cases.
    destruct (negb (String.length g =? guessLength this)%nat); [apply Hsame; auto|].
    destruct (negb (String.length f =? guessLength this)%nat); [apply Hsame; auto|].
    destruct (negb (forallb isScoreLetter (split f))); [apply Hsame; auto|].
    simpl. split; [|split; [|done]].
    + intros w. rewrite count_occ_ranked. apply count_occ_filter_le.
    + exists [(g, f)]. split; [done|]. simpl. lia.
  - rewrite snd_then_ret, getBestGuess_run.
    destruct (length (guessesAndScores this) =? 0)%nat; apply Hsame; auto.
  - rewrite snd_then_ret, getSolutions_run. apply Hsame; auto.
  - rewrite snd_then_ret, getSecondGuess_state. apply Hsame; auto.
  - apply Hsame; auto.
Qed.

Lemma session_cons c r this :
  snd (session (c :: r) this) = snd (perform c this) ∨
  snd (session (c :: r) this) = snd (session r (snd (perform c this))).
Proof.
  cbn [session]. unfold mbind, M_bind.
  destruct (perform c this) as [[a|e] s]; simpl; auto.
Qed.

(** X5. Whatever calls are made ([score] with any arguments, valid or not,
    [getBestGuess], [getSolutions], [getSecondGuess], [letterFrequencyScore]),
    the corpus never gains a word or a further copy of a word, so a corpus
    without duplicates stays without duplicates; the history only grows at
    its end, by at most one record per [score] call; the starting word, the
    logging flag and the guess length never change. This also holds for the
    solver left behind by a call that throws. *)
Theorem session_never_adds calls : ∀ this,
  (∀ w, (count_occ string_dec (corpus (snd (session calls this))) w
         ≤ count_occ string_dec (corpus this) w)%nat) ∧
  (∀ w, In w (corpus (snd (session calls this))) → In w (corpus this)) ∧
  (NoDup (corpus this) → NoDup (corpus (snd (session calls this)))) ∧
  (∃ more, guessesAndScores (snd (session calls this)) = (guessesAndScores this ++ more)%list ∧
           (length more ≤ length (scoresOf calls))%nat) ∧
  startingWord (snd (session calls this)) = startingWord this ∧
  logging (snd (session calls this)) = logging this ∧
  guessLength (snd (session calls this)) = guessLength this.
Proof.
  assert (Hmain : ∀ this,
    (∀ w, (count_occ string_dec (corpus (snd (session calls this))) w
           ≤ count_occ string_dec (corpus this) w)%nat) ∧
    (∃ more, guessesAndScores (snd (session calls this)) = (guessesAndScores this ++ more)%list ∧
             (length more ≤ length (scoresOf calls))%nat) ∧
    startingWord (snd (session calls this)) = startingWord this ∧
    logging (snd (session calls this)) = logging this ∧
    guessLength (snd (session calls this)) = guessLength this).
  { induction calls as [|c r IH]; intros this.
    - simpl. split; [intros; lia|]. split; [|done]. exists []. by rewrite app_nil_r.
    - destruct (perform_never_adds c this) as (Hc & (m1 & Hm1 & Hl1) & Hs & Hl & Hg).
      assert (Hlen : (length (scoresOf [c]) + length (scoresOf r)
                      = length (scoresOf (c :: r)))%nat).
      { destruct c; simpl; lia. }
      destruct (session_cons c r this) as [-> | ->].
      + split; [exact Hc|]. split; [|done]. exists m1. split; [done|lia].
      + destruct (IH (snd (perform c this))) as (Hc' & (m2 & Hm2 & Hl2) & Hs' & Hl' & Hg').
        split; [|split; [|split; [|split]]]; try congruence.
        * intros w. specialize (Hc w). specialize (Hc' w). lia.
        * exists (m1 ++ m2)%list. rewrite Hm2, Hm1, <- app_assoc. split; [done|].
          rewrite length_app. lia. }
  intros this. destruct (Hmain this) as (Hc & Hm & Hrest).
  split; [exact Hc|]. split; [|split; [|split; [exact Hm|exact Hrest]]].
  - intros w Hin. apply (count_occ_In string_dec) in Hin.
    apply (count_occ_In string_dec). specialize (Hc w). lia.
  - intros Hnd. rewrite NoDup_ListNoDup, (NoDup_count_occ string_dec) in Hnd.
    apply NoDup_ListNoDup, (NoDup_count_occ string_dec). intros w. specialize (Hc w).
    specialize (Hnd w). lia.
Qed.

Lemma session_never_adds_witness :
  NoDup (corpus demoSolver) ∧
  NoDup (corpus (snd (session (CallScore "later" "EEIXX" :: demoCalls) demoSolver))).
Proof.
  assert (H : NoDup (corpus demoSolver)).
  { apply (bool_decide_unpack (NoDup (corpus demoSolver))). by vm_compute. }
  split; [exact H|].
  exact (proj1 (proj2 (proj2
    (session_never_adds (CallScore "later" "EEIXX" :: demoCalls) demoSolver))) H).
Defined.

(** ** The scorer and the solver *)

Lemma scoreGuess_length guess target :
  String.length (scoreGuess guess target) = String.length guess.
Proof.
  unfold scoreGuess, zip. rewrite <- !length_split, split_join.
  by rewrite length_map, length_imap.
Qed.

Lemma scoreGuess_charAt_None guess target i :
  charAt guess i = None → charAt (scoreGuess guess target) i = None.
Proof.
  unfold charAt. intros H. apply lookup_ge_None in H. apply lookup_ge_None.
  by rewrite length_split, scoreGuess_length, <- length_split.
Qed.

Lemma scoreGuess_letters guess target :
  forallb isScoreLetter (split (scoreGuess guess target)) = true.
Proof.
  apply forallb_forall. intros l Hl. rewrite <- list_elem_of_In in Hl.
  apply list_elem_of_lookup in Hl. destruct Hl as [i Hi].
  destruct (charAt guess i) as [g|] eqn:E.
  - pose proof (scoreGuess_lookup guess target i g E) as H. unfold charAt in H.
    rewrite Hi in H. injection H as ->.
    destruct (bool_decide _); [done|]. by destruct (includes target g).
  - apply (scoreGuess_charAt_None guess target) in E. unfold charAt in E. congruence.
Qed.

(** X6. [score] accepts what [scoreGuess] produces: with a guess of the
    configured length the call returns, whatever the target, and records the
    guess with its score; with a guess of another length it throws the guess
    length error and changes nothing. *)
Theorem score_of_scoreGuess this guess target :
  (String.length guess = guessLength this →
   ∃ this', score guess (scoreGuess guess target) this = (Returned tt, this') ∧
     guessesAndScores this' =
       (guessesAndScores this ++ [(guess, scoreGuess guess target)])%list) ∧
  (String.length guess ≠ guessLength this →
   score guess (scoreGuess guess target) this = (Thrown GuessLengthError, this)).
Proof.
  split; intros H.
  - exists (afterScore this guess (scoreGuess guess target)). split; [|done].
    apply score_run. split; [done|]. split; [by rewrite scoreGuess_length|].
    apply scoreGuess_letters.
  - rewrite score_cases. apply Nat.eqb_neq in H. by rewrite H.
Qed.

Lemma score_of_scoreGuess_witness :
  String.length "later" = guessLength demoSolver ∧
  ∃ this', score "later" (scoreGuess "later" "tow") demoSolver = (Returned tt, this') ∧
    guessesAndScores this' =
      (guessesAndScores demoSolver ++ [("later", scoreGuess "later" "tow")])%list.
Proof.
  split; [reflexivity|].
  apply (proj1 (score_of_scoreGuess demoSolver "later" "tow")). reflexivity.
Defined.

Lemma scoreGuess_cases guess target i g :
  charAt guess i = Some g →
  (charAt (scoreGuess guess target) i = Some "x"%char ↔ charAt target i = Some g) ∧
  (charAt (scoreGuess guess target) i = Some "i"%char ↔
   charAt target i ≠ Some g ∧ In g (split target)) ∧
  (charAt (scoreGuess guess target) i = Some "e"%char ↔
   charAt target i ≠ Some g ∧ ¬ In g (split target)).
Proof.
  intros Hg. rewrite (scoreGuess_lookup _ _ _ _ Hg), <- includes_In.
  case_bool_decide as E; [|destruct (includes target g) eqn:Ei];
    intuition (discriminate || congruence).
Qed.

Lemma consistent_of_same_score guess target w :
  scoreGuess guess w = scoreGuess guess target →
  consistent guess (scoreGuess guess target) w.
Proof.
  intros <-. split.
  - intros letter (_ & i & Hg & He).
    destruct (scoreGuess_cases guess w i letter Hg) as (_ & _ & E).
    apply E in He. tauto.
  - intros i g Hg. destruct (scoreGuess_cases guess w i g Hg) as (Hx & Hi & He).
    split; [apply Hx|]. split; [intros H; apply Hi in H; tauto|].
    intros H. apply He in H. tauto.
Qed.

Lemma string_eq_charAt a b : (∀ i, charAt a i = charAt b i) → a = b.
Proof.
  intros H. rewrite <- (join_split a), <- (join_split b). f_equal. by apply list_eq.
Qed.

Lemma same_score_of_consistent guess target w :
  NoDup (split guess) →
  consistent guess (scoreGuess guess target) w →
  scoreGuess guess w = scoreGuess guess target.
Proof.
  intros Hnd [Hglobal Hpos]. apply string_eq_charAt. intros i.
  destruct (charAt guess i) as [g|] eqn:Hg.
  2: { by rewrite !scoreGuess_charAt_None. }
  destruct (Hpos i g Hg) as (Px & Pi & Pe).
  destruct (scoreGuess_cases guess target i g Hg) as (Tx & Ti & Te).
  destruct (scoreGuess_cases guess w i g Hg) as (Wx & Wi & We).
  rewrite (scoreGuess_lookup guess target i g Hg) in *.
  case_bool_decide as E; [|destruct (includes target g) eqn:Ei].
  - by apply Wx, Px.
  - apply Wi. destruct (Pi eq_refl). by split.
  - apply We. split; [by apply Pe|]. apply Hglobal. split.
    + intros (j & k & Hne & Hj & Hk). unfold charAt in Hj, Hk.
      apply Hne. by apply (NoDup_lookup (split guess) j k g).
    + exists i. split; [done|]. rewrite (scoreGuess_lookup guess target i g Hg).
      rewrite bool_decide_eq_false_2 by done. by rewrite Ei.
Qed.

(** X7. When a guess is scored with [scoreGuess] against a target, [score]
    keeps every corpus word that [scoreGuess] scores like the target (the
    target itself included); and when the guess has no repeated letter it
    keeps no other word. *)
Theorem score_keeps_same_scored this guess target :
  String.length guess = guessLength this →
  ∃ this', score guess (scoreGuess guess target) this = (Returned tt, this') ∧
    (∀ w, In w (corpus this) → scoreGuess guess w = scoreGuess guess target →
          In w (corpus this')) ∧
    (NoDup (split guess) →
     ∀ w, In w (corpus this') ↔
          In w (corpus this) ∧ scoreGuess guess w = scoreGuess guess target).
Proof.
  intros Hlen. exists (afterScore this guess (scoreGuess guess target)).
  split.
  { apply score_run. split; [done|]. split; [by rewrite scoreGuess_length|].
    apply scoreGuess_letters. }
  split.
  - intros w Hin Hs. simpl. rewrite ranked_In, filter_In, keeps_consistent.
    split; [done|]. by apply consistent_of_same_score.
  - intros Hnd w. simpl. rewrite ranked_In, filter_In, keeps_consistent.
    split; intros [Hin H]; (split; [done|]).
    + by apply same_score_of_consistent.
    + by apply consistent_of_same_score.
Qed.

Lemma score_keeps_same_scored_witness :
  String.length "later" = guessLength demoSolver ∧
  ∃ this', score "later" (scoreGuess "later" "tower") demoSolver = (Returned tt, this') ∧
    (∀ w, In w (corpus demoSolver) → scoreGuess "later" w = scoreGuess "later" "tower" →
          In w (corpus this')) ∧
    (NoDup (split "later") →
     ∀ w, In w (corpus this') ↔
          In w (corpus demoSolver) ∧ scoreGuess "later" w = scoreGuess "later" "tower").
Proof.
  split; [reflexivity|].
  apply (score_keeps_same_scored demoSolver "later" "tower"). reflexivity.
Defined.

Lemma charAt_ge_None s i : (String.length s ≤ i)%nat → charAt s i = None.
Proof. intros H. apply lookup_ge_None. by rewrite length_split. Qed.

(** X8. Scoring a guess of the configured length against a different target
    of the same length removes the guess from the corpus: the corpus gets
    strictly shorter when it contained the guess. *)
Theorem score_removes_wrong_guess this guess target :
  String.length guess = guessLength this →
  String.length target = String.length guess →
  guess ≠ target →
  ∃ this', score guess (scoreGuess guess target) this = (Returned tt, this') ∧
    ¬ In guess (corpus this') ∧
    (In guess (corpus this) → (length (corpus this') < length (corpus this))%nat).
Proof.
  intros Hlen Ht Hne. exists (afterScore this guess (scoreGuess guess target)).
  split.
  { apply score_run. split; [done|]. split; [by rewrite scoreGuess_length|].
    apply scoreGuess_letters. }
  assert (Hno : ¬ consistent guess (scoreGuess guess target) guess).
  { intros [_ Hpos]. apply Hne. apply string_eq_charAt. intros i.
    destruct (charAt guess i) as [g|] eqn:Hg.
    - destruct (Hpos i g Hg) as (_ & Pi & Pe).
      destruct (scoreGuess_cases guess target i g Hg) as (Tx & Ti & Te).
      rewrite (scoreGuess_lookup guess target i g Hg) in *.
      case_bool_decide as E; [done|].
      destruct (includes target g); [by destruct (Pi eq_refl)|by destruct (Pe eq_refl)].
    - symmetry. apply charAt_ge_None. rewrite Ht.
      apply lookup_ge_None in Hg. by rewrite length_split in Hg. }
  split.
  - simpl. rewrite ranked_In, filter_In, keeps_consistent. tauto.
  - intros Hin. simpl. rewrite ranked_length.
    apply (filter_length_lt _ _ guess Hin).
    destruct (keeps guess (scoreGuess guess target) guess) eqn:E; [|done].
    by apply keeps_consistent in E.
Qed.

Lemma score_removes_wrong_guess_witness :
  String.length "later" = guessLength demoSolver ∧
  String.length "tower" = String.length "later" ∧
  "later" ≠ "tower" ∧
  ∃ this', score "later" (scoreGuess "later" "tower") demoSolver = (Returned tt, this') ∧
    ¬ In "later" (corpus this') ∧
    (In "later" (corpus demoSolver) →
     (length (corpus this') < length (corpus demoSolver))%nat).
Proof.
  split; [reflexivity|]. split; [reflexivity|]. split; [done|].
  apply (score_removes_wrong_guess demoSolver "later" "tower"); [reflexivity..|done].
Defined.

(** X9. After an all-x feedback every remaining word carries the letters of
    the guess at the guess's positions; a remaining word of the guess's
    length is the guess itself. *)
Theorem score_all_hits this guess fb :
  validCall this guess fb →
  (∀ l, In l (split fb) → l = "x"%char) →
  ∃ this', score guess fb this = (Returned tt, this') ∧
    ∀ w, In w (corpus this') →
      (∀ i g, charAt guess i = Some g → charAt w i = Some g) ∧
      (String.length w = String.length guess → w = guess).
Proof.
  intros Hv Hx. exists (afterScore this guess fb). split; [by apply score_run|].
  intros w Hin. simpl in Hin. rewrite ranked_In, filter_In, keeps_consistent in Hin.
  destruct Hin as (_ & _ & Hpos). destruct Hv as (Hg & Hf & _).
  assert (Hall : ∀ i g, charAt guess i = Some g → charAt w i = Some g).
  { intros i g Hi. destruct (Hpos i g Hi) as (Px & _). apply Px.
    destruct (charAt fb i) as [l|] eqn:E.
    - f_equal. apply Hx. rewrite <- list_elem_of_In. apply list_elem_of_lookup. eauto.
    - apply lookup_ge_None in E. apply lookup_lt_Some in Hi.
      rewrite !length_split in *. lia. }
  split; [exact Hall|]. intros Hlen. apply string_eq_charAt. intros i.
  destruct (charAt guess i) as [g|] eqn:Hi; [by apply Hall|].
  apply charAt_ge_None. rewrite Hlen. apply lookup_ge_None in Hi.
  by rewrite length_split in Hi.
Qed.

Lemma score_all_hits_witness :
  validCall demoSolver "tower" "xxxxx" ∧
  (∀ l, In l (split "xxxxx") → l = "x"%char) ∧
  ∃ this', score "tower" "xxxxx" demoSolver = (Returned tt, this') ∧
    ∀ w, In w (corpus this') →
      (∀ i g, charAt "tower" i = Some g → charAt w i = Some g) ∧
      (String.length w = String.length "tower" → w = "tower").
Proof.
  assert (H : ∀ l, In l (split "xxxxx") → l = "x"%char).
  { simpl. intros l Hl. repeat (destruct Hl as [<-|Hl]; [reflexivity|]). destruct Hl. }
  split; [repeat split; reflexivity|]. split; [exact H|].
  apply (score_all_hits demoSolver "tower" "xxxxx"); [repeat split; reflexivity|exact H].
Defined.

(** ** playRound *)

Lemma scoreGuess_self w :
  scoreGuess w w = join (replicate (String.length w) "x"%char).
Proof.
  apply string_eq_charAt. intros i. unfold charAt at 2. rewrite split_join.
  destruct (charAt w i) as [g|] eqn:E.
  - rewrite (scoreGuess_lookup w w i g E), bool_decide_eq_true_2 by done.
    symmetry. apply lookup_replicate_2. apply lookup_lt_Some in E.
    by rewrite length_split in E.
  - rewrite (scoreGuess_charAt_None w w i E). symmetry.
    apply lookup_replicate_None. apply lookup_ge_None in E.
    by rewrite length_split in E.
Qed.

Lemma solved_iff guess target :
  String.length guess = String.length target →
  scoreGuess guess target = join (replicate (String.length guess) "x"%char) ↔
  guess = target.
Proof.
  intros Hlen. split; [|intros ->; apply scoreGuess_self].
  intros Hs. apply string_eq_charAt. intros i.
  destruct (charAt guess i) as [g|] eqn:E.
  - symmetry. apply (scoreGuess_cases guess target i g E).
    rewrite Hs. unfold charAt. rewrite split_join.
    apply lookup_replicate_2. apply lookup_lt_Some in E. by rewrite length_split in E.
  - symmetry. apply charAt_ge_None. rewrite <- Hlen. apply lookup_ge_None in E.
    by rewrite length_split in E.
Qed.

Lemma playLoop_exit fuel target solved fg solver g att gs scs :
  playLoop (S fuel) target solved fg solver g solved att gs scs =
  Some (inr (mkRound att target fg gs scs)).
Proof. cbn [playLoop]. by rewrite String.eqb_refl. Qed.

Lemma playLoop_step fuel target solved fg solver g sc att gs scs g' solver1 solver2 :
  sc ≠ solved →
  getBestGuess solver = (Returned (Some g'), solver1) →
  String.length g' ≠ 0%nat →
  score g' (scoreGuess g' target) solver1 = (Returned tt, solver2) →
  playLoop (S fuel) target solved fg solver g sc att gs scs =
  playLoop fuel target solved fg solver2 g' (scoreGuess g' target) (S att)
    (gs ++ [g']) (scs ++ [scoreGuess g' target]).
Proof.
  intros Hne Hb Hl Hs. cbn [playLoop].
  apply String.eqb_neq in Hne. rewrite Hne. cbn [negb]. rewrite Hb.
  apply Nat.eqb_neq in Hl. rewrite Hl. by rewrite Hs.
Qed.

Lemma afterScore_keeps_target this guess target :
  In target (corpus this) →
  In target (corpus (afterScore this guess (scoreGuess guess target))).
Proof.
  intros Hin. simpl. rewrite ranked_In, filter_In, keeps_consistent.
  split; [done|]. by apply consistent_of_same_score.
Qed.

Lemma afterScore_lengths this guess fb n :
  Forall (λ w, String.length w = n) (corpus this) →
  Forall (λ w, String.length w = n) (corpus (afterScore this guess fb)).
Proof.
  rewrite !Forall_forall. intros H w Hin. rewrite list_elem_of_In in Hin.
  simpl in Hin. rewrite ranked_In, filter_In in Hin. apply H.
  rewrite list_elem_of_In. tauto.
Qed.

Lemma last_snoc_cons {B} (x : B) l y : last (x :: l ++ [y]) = Some y.
Proof. by rewrite app_comm_cons, last_snoc. Qed.

(** The loop once a guess has been scored: the corpus holds the target and
    loses the guess of every round that misses. *)
Lemma playLoop_finds target n : ∀ solver g att gs scs fg,
  String.length target = 5%nat →
  guessLength solver = 5%nat →
  Forall (λ w, String.length w = 5%nat) (corpus solver) →
  guessesAndScores solver ≠ [] →
  String.length g = 5%nat →
  (g ≠ target → In target (corpus solver) ∧ (length (corpus solver) ≤ n)%nat) →
  ∃ more,
    (∀ fuel, (n + 1 ≤ fuel)%nat →
       playLoop fuel target (join (replicate 5 "x"%char)) fg solver g (scoreGuess g target)
         att gs scs =
       Some (inr (mkRound (att + length more) target fg (gs ++ more)
                    (scs ++ map (λ w, scoreGuess w target) more)))) ∧
    (length more ≤ n)%nat ∧
    last (g :: more) = Some target ∧
    (g ≠ target → more ≠ []).
Proof.
  induction n as [|n IH]; intros solver g att gs scs fg Ht Hgl Hall Hh Hg Hinv.
  - destruct (decide (g = target)) as [->|Hne].
    + exists []. split; [|done]. intros fuel Hfuel. destruct fuel as [|fuel]; [lia|].
      by rewrite scoreGuess_self, Ht, playLoop_exit, !app_nil_r, Nat.add_0_r.
    + destruct (Hinv Hne) as [Hin Hlen]. destruct (corpus solver); [done|simpl in Hlen; lia].
  - destruct (decide (g = target)) as [->|Hne].
    + exists []. split; [|split; [simpl; lia|done]].
      intros fuel Hfuel. destruct fuel as [|fuel]; [lia|].
      by rewrite scoreGuess_self, Ht, playLoop_exit, !app_nil_r, Nat.add_0_r.
    + destruct (Hinv Hne) as [Hin Hlen].
      assert (Hsc : scoreGuess g target ≠ join (replicate 5 "x"%char)).
      { rewrite <- Hg. rewrite solved_iff; [done|congruence]. }
      destruct (ranked (corpus solver)) as [|top rest] eqn:Er.
      { apply (f_equal length) in Er. rewrite ranked_length in Er.
        destruct (corpus solver); [done|discriminate]. }
      assert (Htop : In top (corpus solver)).
      { apply ranked_In. rewrite Er. by left. }
      assert (Htl : String.length top = 5%nat).
      { rewrite Forall_forall in Hall. apply Hall. by apply list_elem_of_In. }
      set (solver1 := withCorpus (ranked (corpus solver)) solver).
      assert (Hb : getBestGuess solver = (Returned (Some top), solver1)).
      { rewrite getBestGuess_run. destruct (guessesAndScores solver); [done|].
        cbn [length Nat.eqb]. subst solver1. by rewrite Er. }
      assert (Hs : score top (scoreGuess top target) solver1 =
                   (Returned tt, afterScore solver1 top (scoreGuess top target))).
      { apply score_run. split; [by rewrite Htl|].
        split; [by rewrite scoreGuess_length, Htl|]. apply scoreGuess_letters. }
      destruct (IH (afterScore solver1 top (scoreGuess top target)) top (S att)
                  (gs ++ [top])%list (scs ++ [scoreGuess top target])%list fg)
        as (more & Hrun & Hlm & Hlast & Hnonempty); auto.
      * apply afterScore_lengths. simpl. apply Forall_forall. intros w Hw.
        rewrite list_elem_of_In, ranked_In in Hw.
        rewrite Forall_forall in Hall. apply Hall. by apply list_elem_of_In.
      * simpl. by destruct (guessesAndScores solver).
      * intros Hnt. split.
        -- apply afterScore_keeps_target. simpl. by apply ranked_In.
        -- simpl. rewrite ranked_length.
           assert (length (List.filter (keeps top (scoreGuess top target))
                             (ranked (corpus solver))) < length (ranked (corpus solver)))%nat.
           { apply (filter_length_lt _ _ top); [rewrite Er; by left|].
             destruct (keeps top (scoreGuess top target) top) eqn:E; [|done].
             apply keeps_consistent in E. destruct E as [_ Hpos].
             exfalso. apply Hnt. apply string_eq_charAt. intros i.
             destruct (charAt top i) as [c|] eqn:Hc.
             - destruct (Hpos i c Hc) as (_ & Pi & Pe).
               rewrite (scoreGuess_lookup top target i c Hc) in *.
               case_bool_decide as E'; [done|].
               destruct (includes target c);
                 [by destruct (Pi eq_refl)|by destruct (Pe eq_refl)].
             - symmetry. apply charAt_ge_None. rewrite Ht, <- Htl.
               apply lookup_ge_None in Hc. by rewrite length_split in Hc. }
           rewrite ranked_length in *. lia.
      * exists (top :: more). split; [|split; [|split]].
        -- intros fuel Hfuel. destruct fuel as [|fuel]; [lia|].
           rewrite (playLoop_step fuel target _ fg solver g _ att gs scs top solver1 _
                      Hsc Hb ltac:(lia) Hs).
           rewrite Hrun by lia. do 2 f_equal. f_equal.
           ++ simpl. lia.
           ++ by rewrite <- app_assoc.
           ++ simpl. by rewrite <- app_assoc.
        -- simpl. lia.
        -- exact Hlast.
        -- done.
Qed.

(** X10. [playRound] finds the target: when every word of the corpus has
    five letters, the target is one of them and the starting word, if given,
    has five letters, the round returns (no error, no endless loop) after at
    most one guess per corpus word plus one. [attempts] counts the guesses
    made inside the loop, whose first is the first guess again and whose last
    is the target, each recorded with its score; so [attempts] is 0 when the
    first guess is the target, and never 1. *)
Theorem playRound_finds_target solutions target sw lg :
  Forall (λ w, String.length w = 5%nat) solutions →
  In target solutions →
  (∀ w, sw = Some w → String.length w = 5%nat) →
  ∃ r,
    (∀ fuel, (length solutions + 2 ≤ fuel)%nat →
       playRound fuel solutions target sw lg = Some (inr r)) ∧
    targetWord r = target ∧
    attempts r = length (guesses r) ∧
    scores r = map (λ w, scoreGuess w target) (guesses r) ∧
    (attempts r ≤ length solutions + 1)%nat ∧
    attempts r ≠ 1%nat ∧
    (attempts r = 0%nat ↔ firstGuess r = target) ∧
    (firstGuess r ≠ target →
     guesses r !! 0%nat = Some (firstGuess r) ∧ last (guesses r) = Some target).
Proof.
  intros Hall Hin Hsw.
  assert (Ht : String.length target = 5%nat).
  { rewrite Forall_forall in Hall. apply Hall. by apply list_elem_of_In. }
  set (solver := newWordleSolver solutions sw false).
  assert (Hsolver : solver = mkSolver (ranked solutions)
            (match sw with Some w => Some w | None => ranked solutions !! 0%nat end)
            [] false 5).
  { apply newWordleSolver_eq. }
  assert (Hfirst : ∃ g0, startingWord solver = Some g0 ∧ String.length g0 = 5%nat).
  { rewrite Hsolver. simpl. destruct sw as [w|]; [exists w; auto|].
    destruct (ranked solutions) as [|top rest] eqn:Er.
    - apply (f_equal length) in Er. rewrite ranked_length in Er.
      destruct solutions; [done|discriminate].
    - exists top. split; [done|]. rewrite Forall_forall in Hall. apply Hall.
      apply list_elem_of_In, ranked_In. rewrite Er. by left. }
  destruct Hfirst as (g0 & Hsw0 & Hg0).
  assert (Hb : getBestGuess solver = (Returned (Some g0), solver)).
  { rewrite getBestGuess_run, <- Hsw0. by rewrite Hsolver. }
  assert (Hgl : guessLength solver = 5%nat) by (by rewrite Hsolver).
  destruct (decide (g0 = target)) as [Heq|Hne].
  - exists (mkRound 0 target g0 [] []). split.
    + intros fuel Hfuel. unfold playRound. fold solver. rewrite Hb, Hgl.
      destruct fuel as [|fuel]; [lia|]. subst g0.
      by rewrite scoreGuess_self, Ht, playLoop_exit.
    + simpl. split_and!; try done; lia.
  - assert (Hs : score g0 (scoreGuess g0 target) solver =
                 (Returned tt, afterScore solver g0 (scoreGuess g0 target))).
    { apply score_run. split; [by rewrite Hg0, Hgl|].
      split; [by rewrite scoreGuess_length, Hg0, Hgl|]. apply scoreGuess_letters. }
    assert (Hsc : scoreGuess g0 target ≠ join (replicate 5 "x"%char)).
    { rewrite <- Hg0. rewrite solved_iff; [done|congruence]. }
    assert (Hc : corpus solver = ranked solutions) by (by rewrite Hsolver).
    destruct (playLoop_finds target (length solutions)
                (afterScore solver g0 (scoreGuess g0 target)) g0 1%nat
                [g0] [scoreGuess g0 target] g0)
      as (more & Hrun & Hlm & Hlast & Hnonempty); auto.
    + apply afterScore_lengths. rewrite Hc. apply Forall_forall. intros w Hw.
      rewrite list_elem_of_In, ranked_In in Hw.
      rewrite Forall_forall in Hall. apply Hall. by apply list_elem_of_In.
    + simpl. by destruct (guessesAndScores solver).
    + intros _. split.
      * apply afterScore_keeps_target. rewrite Hc. by apply ranked_In.
      * simpl. rewrite ranked_length, Hc.
        etrans; [apply filter_length_le|]. by rewrite ranked_length.
    + exists (mkRound (1 + length more) target g0 ([g0] ++ more)
                ([scoreGuess g0 target] ++ map (λ w, scoreGuess w target) more)).
      split; [|simpl; split; [done|]; split; [done|]; split; [done|]; split; [lia|]].
      * intros fuel Hfuel. unfold playRound. fold solver. rewrite Hb, Hgl.
        cbn zeta. destruct fuel as [|fuel]; [lia|].
        rewrite (playLoop_step fuel target _ g0 solver g0 _ 0 [] [] g0 solver _
                   Hsc Hb ltac:(lia) Hs).
        rewrite Hrun by lia. reflexivity.
      * specialize (Hnonempty Hne). split; [|split].
        -- destruct more; [done|simpl; lia].
        -- split; [lia|done].
        -- intros _. split; [done|].
           destruct more as [|m more']; [done|]. exact Hlast.
Qed.

Lemma playRound_finds_target_witness :
  Forall (λ w, String.length w = 5%nat) demoWords ∧
  In "tower" demoWords ∧
  (∀ w, @None string = Some w → String.length w = 5%nat) ∧
  ∃ r,
    (∀ fuel, (length demoWords + 2 ≤ fuel)%nat →
       playRound fuel demoWords "tower" None false = Some (inr r)) ∧
    targetWord r = "tower" ∧
    attempts r = length (guesses r) ∧
    scores r = map (λ w, scoreGuess w "tower") (guesses r) ∧
    (attempts r ≤ length demoWords + 1)%nat ∧
    attempts r ≠ 1%nat ∧
    (attempts r = 0%nat ↔ firstGuess r = "tower") ∧
    (firstGuess r ≠ "tower" →
     guesses r !! 0%nat = Some (firstGuess r) ∧ last (guesses r) = Some "tower").
Proof.
  assert (H1 : Forall (λ w, String.length w = 5%nat) demoWords).
  { repeat constructor. }
  assert (H2 : In "tower" demoWords).
  { simpl. tauto. }
  assert (H3 : ∀ w, @None string = Some w → String.length w = 5%nat).
  { intros w H. discriminate H. }
  split; [exact H1|]. split; [exact H2|]. split; [exact H3|].
  exact (playRound_finds_target demoWords "tower" None false H1 H2 H3).
Defined.

(** The round on the example corpus: the first guess is made twice. *)
Example playRound_demo :
  playRound 10 demoWords "tower" None false =
  Some (inr (mkRound 2 "tower" "other" ["other"; "tower"] ["iiexx"; "xxxxx"])).
Proof. reflexivity. Qed.

Lemma playLoop_stuck fuel target solved fg solver g sc att gs scs solver1 :
  sc ≠ solved →
  getBestGuess solver = (Returned None, solver1) →
  playLoop (S fuel) target solved fg solver g sc att gs scs =
  Some (inl (NoMoreGuesses g target)).
Proof.
  intros Hne Hb. cbn [playLoop].
  apply String.eqb_neq in Hne. rewrite Hne. cbn [negb]. by rewrite Hb.
Qed.

Lemma afterScore_drops_guess this guess target :
  String.length target = String.length guess → guess ≠ target →
  In guess (corpus this) →
  (length (corpus (afterScore this guess (scoreGuess guess target)))
   < length (corpus this))%nat.
Proof.
  intros Ht Hne Hin. simpl. rewrite ranked_length.
  apply (filter_length_lt _ _ guess Hin).
  destruct (keeps guess (scoreGuess guess target) guess) eqn:E; [|done].
  apply keeps_consistent in E. destruct E as [_ Hpos].
  exfalso. apply Hne. apply string_eq_charAt. intros i.
  destruct (charAt guess i) as [c|] eqn:Hc.
  - destruct (Hpos i c Hc) as (_ & Pi & Pe).
    rewrite (scoreGuess_lookup guess target i c Hc) in *.
    case_bool_decide as E'; [done|].
    destruct (includes target c); [by destruct (Pi eq_refl)|by destruct (Pe eq_refl)].
  - symmetry. apply charAt_ge_None. rewrite Ht.
    apply lookup_ge_None in Hc. by rewrite length_split in Hc.
Qed.

Lemma afterScore_subset this guess fb w :
  In w (corpus (afterScore this guess fb)) → In w (corpus this).
Proof. simpl. rewrite ranked_In, filter_In. tauto. Qed.

(** The loop when the corpus does not hold the target: every round misses
    and removes its guess, until no guess is left. *)
Lemma playLoop_gives_up target n : ∀ solver g att gs scs fg,
  String.length target = 5%nat →
  guessLength solver = 5%nat →
  Forall (λ w, String.length w = 5%nat) (corpus solver) →
  guessesAndScores solver ≠ [] →
  String.length g = 5%nat →
  g ≠ target →
  ¬ In target (corpus solver) →
  (length (corpus solver) ≤ n)%nat →
  ∃ prior, ∀ fuel, (n + 1 ≤ fuel)%nat →
    playLoop fuel target (join (replicate 5 "x"%char)) fg solver g (scoreGuess g target)
      att gs scs =
    Some (inl (NoMoreGuesses prior target)).
Proof.
  induction n as [|n IH]; intros solver g att gs scs fg Ht Hgl Hall Hh Hg Hne Hnin Hlen;
    (assert (Hsc : scoreGuess g target ≠ join (replicate 5 "x"%char));
     [rewrite <- Hg; rewrite solved_iff; [done|congruence]|]);
    destruct (ranked (corpus solver)) as [|top rest] eqn:Er.
  - exists g. intros fuel Hfuel. destruct fuel as [|fuel]; [lia|].
    apply (playLoop_stuck _ _ _ _ _ _ _ _ _ _ (withCorpus [] solver)); [done|].
    rewrite getBestGuess_run. destruct (guessesAndScores solver); [done|].
    cbn [length Nat.eqb]. by rewrite Er.
  - apply (f_equal length) in Er. rewrite ranked_length in Er. simpl in Er. lia.
  - exists g. intros fuel Hfuel. destruct fuel as [|fuel]; [lia|].
    apply (playLoop_stuck _ _ _ _ _ _ _ _ _ _ (withCorpus [] solver)); [done|].
    rewrite getBestGuess_run. destruct (guessesAndScores solver); [done|].
    cbn [length Nat.eqb]. by rewrite Er.
  - assert (Htop : In top (corpus solver)).
    { apply ranked_In. rewrite Er. by left. }
    assert (Htl : String.length top = 5%nat).
    { rewrite Forall_forall in Hall. apply Hall. by apply list_elem_of_In. }
    assert (Htne : top ≠ target) by congruence.
    set (solver1 := withCorpus (ranked (corpus solver)) solver).
    assert (Hb : getBestGuess solver = (Returned (Some top), solver1)).
    { rewrite getBestGuess_run. destruct (guessesAndScores solver); [done|].
      cbn [length Nat.eqb]. subst solver1. by rewrite Er. }
    assert (Hs : score top (scoreGuess top target) solver1 =
                 (Returned tt, afterScore solver1 top (scoreGuess top target))).
    { apply score_run. split; [by rewrite Htl|].
      split; [by rewrite scoreGuess_length, Htl|]. apply scoreGuess_letters. }
    destruct (IH (afterScore solver1 top (scoreGuess top target)) top (S att)
                (gs ++ [top])%list (scs ++ [scoreGuess top target])%list fg)
      as (prior & Hrun); auto.
    + apply afterScore_lengths. simpl. apply Forall_forall. intros w Hw.
      rewrite list_elem_of_In, ranked_In in Hw.
      rewrite Forall_forall in Hall. apply Hall. by apply list_elem_of_In.
    + simpl. by destruct (guessesAndScores solver).
    + intros H. apply afterScore_subset in H. apply Hnin.
      apply (ranked_In (corpus solver) target). exact H.
    + assert (length (corpus (afterScore solver1 top (scoreGuess top target)))
              < length (corpus solver1))%nat as Hd.
      { apply afterScore_drops_guess; [congruence|done|].
        apply (ranked_In (corpus solver) top). exact Htop. }
      change (corpus solver1) with (ranked (corpus solver)) in Hd.
      rewrite ranked_length in Hd. lia.
    + exists prior. intros fuel Hfuel. destruct fuel as [|fuel]; [lia|].
      rewrite (playLoop_step fuel target _ fg solver g _ att gs scs top solver1 _
                 Hsc Hb ltac:(lia) Hs).
      apply Hrun. lia.
Qed.

(** X11. [playRound] on a target that is not in the corpus (five-letter
    words, and a starting word that is not the target): the round neither
    returns nor runs forever; it throws "No more guesses" once the corpus is
    used up, or, with an empty corpus and no starting word, fails at once on
    the missing first guess. *)
Theorem playRound_target_not_in_corpus solutions target sw lg :
  Forall (λ w, String.length w = 5%nat) solutions →
  String.length target = 5%nat →
  ¬ In target solutions →
  (∀ w, sw = Some w → String.length w = 5%nat ∧ w ≠ target) →
  ∃ e,
    (∀ fuel, (length solutions + 2 ≤ fuel)%nat →
       playRound fuel solutions target sw lg = Some (inl e)) ∧
    (solutions = [] ∧ sw = None → e = NullGuess) ∧
    (solutions ≠ [] ∨ sw ≠ None → ∃ prior, e = NoMoreGuesses prior target).
Proof.
  intros Hall Ht Hnin Hsw.
  set (solver := newWordleSolver solutions sw false).
  assert (Hsolver : solver = mkSolver (ranked solutions)
            (match sw with Some w => Some w | None => ranked solutions !! 0%nat end)
            [] false 5).
  { apply newWordleSolver_eq. }
  assert (Hgl : guessLength solver = 5%nat) by (by rewrite Hsolver).
  assert (Hc : corpus solver = ranked solutions) by (by rewrite Hsolver).
  destruct (startingWord solver) as [g0|] eqn:Hsw0.
  - assert (Hb : getBestGuess solver = (Returned (Some g0), solver)).
    { rewrite getBestGuess_run, <- Hsw0. by rewrite Hsolver. }
    assert (Hg0 : String.length g0 = 5%nat ∧ g0 ≠ target).
    { rewrite Hsolver in Hsw0. simpl in Hsw0. destruct sw as [w|].
      - injection Hsw0 as <-. by apply Hsw.
      - assert (In g0 solutions) as Hin.
        { apply ranked_In. rewrite <- list_elem_of_In. apply list_elem_of_lookup. eauto. }
        split; [|congruence]. rewrite Forall_forall in Hall. apply Hall.
        by apply list_elem_of_In. }
    destruct Hg0 as [Hg0 Hne].
    assert (Hs : score g0 (scoreGuess g0 target) solver =
                 (Returned tt, afterScore solver g0 (scoreGuess g0 target))).
    { apply score_run. split; [by rewrite Hg0, Hgl|].
      split; [by rewrite scoreGuess_length, Hg0, Hgl|]. apply scoreGuess_letters. }
    assert (Hsc : scoreGuess g0 target ≠ join (replicate 5 "x"%char)).
    { rewrite <- Hg0. rewrite solved_iff; [done|congruence]. }
    destruct (playLoop_gives_up target (length solutions)
                (afterScore solver g0 (scoreGuess g0 target)) g0 1%nat
                [g0] [scoreGuess g0 target] g0)
      as (prior & Hrun); auto.
    + apply afterScore_lengths. rewrite Hc. apply Forall_forall. intros w Hw.
      rewrite list_elem_of_In, ranked_In in Hw.
      rewrite Forall_forall in Hall. apply Hall. by apply list_elem_of_In.
    + simpl. by destruct (guessesAndScores solver).
    + intros H. apply afterScore_subset in H. rewrite Hc in H.
      apply Hnin. apply (ranked_In solutions target). exact H.
    + simpl. rewrite ranked_length, Hc.
      etrans; [apply filter_length_le|]. by rewrite ranked_length.
    + exists (NoMoreGuesses prior target). split; [|split].
      * intros fuel Hfuel. unfold playRound. fold solver. rewrite Hb, Hgl.
        cbn zeta. destruct fuel as [|fuel]; [lia|].
        rewrite (playLoop_step fuel target _ g0 solver g0 _ 0 [] [] g0 solver _
                   Hsc Hb ltac:(lia) Hs).
        apply Hrun. lia.
      * intros [-> ->]. rewrite Hsolver in Hsw0. discriminate.
      * intros _. by exists prior.
  - exists NullGuess. split; [|split].
    + intros fuel _. unfold playRound. fold solver.
      rewrite getBestGuess_run, Hsw0. by rewrite Hsolver.
    + done.
    + intros H. exfalso. rewrite Hsolver in Hsw0. simpl in Hsw0.
      destruct sw as [w|]; [done|]. destruct H as [H|H]; [|done].
      destruct (ranked solutions) as [|top rest] eqn:Er; [|done].
      apply (f_equal length) in Er. rewrite ranked_length in Er.
      by destruct solutions.
Qed.

Lemma playRound_target_not_in_corpus_witness :
  Forall (λ w, String.length w = 5%nat) demoWords ∧
  String.length "curve" = 5%nat ∧
  ¬ In "curve" demoWords ∧
  (∀ w, Some "later" = Some w → String.length w = 5%nat ∧ w ≠ "curve") ∧
  ∃ e,
    (∀ fuel, (length demoWords + 2 ≤ fuel)%nat →
       playRound fuel demoWords "curve" (Some "later") false = Some (inl e)) ∧
    (demoWords = [] ∧ Some "later" = None → e = NullGuess) ∧
    (demoWords ≠ [] ∨ Some "later" ≠ None → ∃ prior, e = NoMoreGuesses prior "curve").
Proof.
  assert (H1 : Forall (λ w, String.length w = 5%nat) demoWords).
  { repeat constructor. }
  assert (H2 : ¬ In "curve" demoWords).
  { simpl. intros H. repeat (destruct H as [H|H]; [discriminate H|]). exact H. }
  assert (H3 : ∀ w, Some "later" = Some w → String.length w = 5%nat ∧ w ≠ "curve").
  { intros w [= <-]. split; [reflexivity|discriminate]. }
  split; [exact H1|]. split; [reflexivity|]. split; [exact H2|]. split; [exact H3|].
  exact (playRound_target_not_in_corpus demoWords "curve" (Some "later") false
           H1 eq_refl H2 H3).
Defined.

(** X12. A starting word of a wrong length stops [playRound] in its first
    round: the empty string counts as no guess, and any other word of a
    length other than five makes [score] throw its guess length error;
    whatever the corpus and the target. *)
Theorem playRound_bad_starting_word solutions target w lg fuel :
  String.length w ≠ 5%nat →
  playRound (S fuel) solutions target (Some w) lg =
  Some (inl (if (String.length w =? 0)%nat then NoMoreGuesses w target
             else SolverError GuessLengthError)).
Proof.
  intros Hlen. unfold playRound.
  set (solver := newWordleSolver solutions (Some w) false).
  assert (Hsolver : solver = mkSolver (ranked solutions) (Some w) [] false 5).
  { apply newWordleSolver_eq. }
  assert (Hb : getBestGuess solver = (Returned (Some w), solver)).
  { rewrite getBestGuess_run. by rewrite Hsolver. }
  rewrite Hb. cbn zeta. cbn [playLoop].
  assert (Hsc : scoreGuess w target ≠ join (replicate (guessLength solver) "x"%char)).
  { intros H. apply (f_equal String.length) in H.
    rewrite scoreGuess_length, <- (length_split (join _)), split_join in H.
    rewrite length_replicate in H. rewrite Hsolver in H. simpl in H. done. }
  apply String.eqb_neq in Hsc. rewrite Hsc. cbn [negb]. rewrite Hb.
  destruct (String.length w =? 0)%nat; [done|].
  rewrite score_cases. rewrite Hsolver. cbn [guessLength].
  apply Nat.eqb_neq in Hlen. by rewrite Hlen.
Qed.

Lemma playRound_bad_starting_word_witness :
  String.length "late" ≠ 5%nat ∧
  playRound 1 demoWords "tower" (Some "late") false =
  Some (inl (SolverError GuessLengthError)).
Proof.
  split; [discriminate|].
  apply (playRound_bad_starting_word demoWords "tower" "late" false 0). discriminate.
Defined.

(** ** getSecondGuess after a scored guess *)

Lemma everyFrom_spec {B} (f : B → nat → bool) l : ∀ index,
  everyFrom f l index = true ↔ ∀ i x, l !! i = Some x → f x (index + i)%nat = true.
Proof.
  induction l as [|y r IH]; intros index; simpl.
  - split; [intros _ i x H; by rewrite lookup_nil in H | done].
  - rewrite andb_true_iff, IH. split.
    + intros [H0 Hr] [|i] x Hi; simpl in Hi.
      * injection Hi as <-. by rewrite Nat.add_0_r.
      * replace (index + S i)%nat with (S index + i)%nat by lia. by apply Hr.
    + intros H. split.
      * specialize (H 0%nat y eq_refl). by rewrite Nat.add_0_r in H.
      * intros i x Hi. specialize (H (S i) x Hi).
        by replace (index + S i)%nat with (S index + i)%nat in H by lia.
Qed.

(** X13. With a scored guess in the history, [getSecondGuess] leaves the
    solver untouched and returns, in ranked order, exactly the corpus words
    that share no letter with the last guess at any position which that
    guess's score does not mark x. *)
Theorem getSecondGuess_after_score this priorGuess priorGuessScore :
  last (guessesAndScores this) = Some (priorGuess, priorGuessScore) →
  ∃ l, getSecondGuess this = (Returned l, this) ∧
    ranked l = l ∧
    ∀ w, In w l ↔
         In w (corpus this) ∧
         ∀ i letter, charAt w i = Some letter →
           charAt priorGuessScore i = Some "x"%char ∨ charAt priorGuess i ≠ Some letter.
Proof.
  intros Hlast.
  set (test := λ word : string,
    everyFrom (λ letter index,
      bool_decide (charAt priorGuessScore index = Some "x"%char)
      || differs (charAt priorGuess index) letter) (split word) 0%nat).
  exists (ranked (List.filter test (corpus this))). split; [|split].
  - unfold getSecondGuess, mbind, M_bind, get.
    destruct (guessesAndScores this) as [|p h] eqn:Eh; [done|].
    cbn [length Nat.eqb]. rewrite Hlast. rewrite getSolutions_run.
    rewrite newWordleSolver_eq. cbn [corpus]. by rewrite ranked_idempotent.
  - apply ranked_idempotent.
  - intros w. rewrite ranked_In, filter_In. apply and_iff_both; [done|].
    unfold test. rewrite everyFrom_spec. unfold charAt. split.
    + intros H i letter Hi. specialize (H i letter Hi). simpl in H.
      apply orb_true_iff in H. rewrite bool_decide_eq_true, differs_spec in H. exact H.
    + intros H i letter Hi. simpl. apply orb_true_iff.
      rewrite bool_decide_eq_true, differs_spec. by apply H.
Qed.

Lemma getSecondGuess_after_score_witness :
  last (guessesAndScores (afterScore demoSolver "shire" "eeeii")) = Some ("shire", "eeeii") ∧
  ∃ l, getSecondGuess (afterScore demoSolver "shire" "eeeii")
       = (Returned l, afterScore demoSolver "shire" "eeeii") ∧
    ranked l = l ∧
    ∀ w, In w l ↔
         In w (corpus (afterScore demoSolver "shire" "eeeii")) ∧
         ∀ i letter, charAt w i = Some letter →
           charAt "eeeii" i = Some "x"%char ∨ charAt "shire" i ≠ Some letter.
Proof.
  split; [reflexivity|].
  apply (getSecondGuess_after_score (afterScore demoSolver "shire" "eeeii") "shire" "eeeii").
  reflexivity.
Defined.

(** ** reset *)

(** X14. [reset] stores the given corpus as it is, without ranking it, and
    forgets the history but not the starting word: on a solver built without
    a starting word from one corpus and then reset to another, the next
    [getBestGuess] is still the best word of the first corpus, whether or not
    the new corpus contains it, and [getSecondGuess] returns the new corpus
    in the order given. *)
Theorem reset_keeps_starting_word first second lg :
  (reset second;; getBestGuess) (newWordleSolver first None lg) =
    (Returned (ranked first !! 0%nat),
     mkSolver second (ranked first !! 0%nat) [] lg 5) ∧
  (reset second;; getSecondGuess) (newWordleSolver first None lg) =
    (Returned second, mkSolver second (ranked first !! 0%nat) [] lg 5).
Proof. rewrite newWordleSolver_eq. split; reflexivity. Qed.

(** ** The frequency score *)

Lemma sumFrequencies_fold (t : gmap ascii Z) (f : ascii → Z) letters : ∀ acc,
  (∀ l, In l letters → t !! l = Some (f l)) →
  fold_left (λ acc letter, addLookup acc (t !! letter)) letters (Num acc) =
  Num (acc + fold_right (λ l s, f l + s) 0 letters).
Proof.
  induction letters as [|l r IH]; intros acc H; simpl.
  - by rewrite Z.add_0_r.
  - rewrite (H l) by (by left). simpl. rewrite IH by (intros; apply H; by right).
    f_equal. lia.
Qed.

Lemma sumFrequencies_value words word :
  (∀ letter, In letter (split word) → ∃ w, In w words ∧ In letter (split w)) →
  sumFrequencies (letterFrequencyOf words None) word =
  Num (Z.of_nat (letterTotal word words + String.length word)).
Proof.
  intros H. unfold sumFrequencies.
  rewrite (sumFrequencies_fold _ (λ l, Z.of_nat (timesIn l words) + 1)).
  - f_equal. unfold letterTotal. rewrite <- length_split. rewrite Z.add_0_l.
    clear H. induction (split word) as [|l r IH]; simpl; [done|].
    rewrite IH. lia.
  - intros l Hl. rewrite letterFrequencyOf_lookup. simpl.
    destruct (Nat.eqb_spec (timesIn l words) 0) as [E|E]; [|done].
    rewrite timesIn_zero in E. destruct (H l Hl) as (w & Hw & Hlw).
    by destruct (E w Hw).
Qed.

(** X15. For a word whose letters all occur in the corpus,
    [letterFrequencyScore] is the sum of the occurrences of its letters in
    the corpus (a repeated letter counted each time) plus the length of the
    word, since every table entry is one too high. *)
Theorem letterFrequencyScore_value this word :
  (∀ letter, In letter (split word) →
     ∃ w, In w (corpus this) ∧ In letter (split w)) →
  letterFrequencyScore word this =
  (Returned (Num (Z.of_nat (letterTotal word (corpus this) + String.length word))), this).
Proof.
  intros H. unfold letterFrequencyScore, letterFrequency, mbind, M_bind, get, mret, M_ret.
  by rewrite sumFrequencies_value.
Qed.

Lemma letterFrequencyScore_value_witness :
  (∀ letter, In letter (split "tt") →
     ∃ w, In w (corpus demoSolver) ∧ In letter (split w)) ∧
  letterFrequencyScore "tt" demoSolver = (Returned (Num 14), demoSolver).
Proof.
  assert (H : ∀ letter, In letter (split "tt") →
     ∃ w, In w (corpus demoSolver) ∧ In letter (split w)).
  { intros letter Hl. exists "tower". split; [vm_compute; tauto|].
    simpl in Hl. destruct Hl as [<-|[<-|[]]]; simpl; tauto. }
  split; [exact H|].
  etrans; [exact (letterFrequencyScore_value demoSolver "tt" H)|reflexivity].
Defined.

(** X16. The comparator that ranks the corpus, on two corpus words of equal
    length, is the comparator on the true letter counts: the difference of
    the numbers of distinct letters, or else the difference of the sums of
    occurrences. The surplus of one per table entry cancels, so it does not
    change the ranking of a corpus of words of one length. *)
Theorem byFrequency_true_counts words a b :
  In a words → In b words → String.length a = String.length b →
  byFrequency (letterFrequencyOf words None) a b =
  Num (if decide (uniqs a = uniqs b)
       then Z.of_nat (letterTotal b words) - Z.of_nat (letterTotal a words)
       else uniqs b - uniqs a).
Proof.
  intros Ha Hb Hlen. unfold byFrequency. cbn zeta.
  destruct (Z.eqb_spec (uniqs b - uniqs a) 0) as [E|E]; cbn [negb].
  - rewrite decide_True by lia.
    rewrite !sumFrequencies_value by (intros l Hl; eauto). simpl. f_equal. lia.
  - by rewrite decide_False by lia.
Qed.

Lemma byFrequency_true_counts_witness :
  In "tower" demoWords ∧ In "other" demoWords ∧
  String.length "tower" = String.length "other" ∧
  byFrequency (letterFrequencyOf demoWords None) "tower" "other" = Num 3.
Proof.
  assert (H1 : In "tower" demoWords) by (simpl; tauto).
  assert (H2 : In "other" demoWords) by (simpl; tauto).
  split; [exact H1|]. split; [exact H2|]. split; [reflexivity|].
  etrans; [exact (byFrequency_true_counts demoWords "tower" "other" H1 H2 eq_refl)|].
  by vm_compute.
Defined.

(** ** bestLetters and bestLetterPositions *)

Lemma objGet_objSet object key value k :
  objGet (objSet object key value) k =
  if decide (k = key) then Some value else objGet object k.
Proof.
  unfold objGet. induction object as [|[k' v'] r IH]; simpl.
  - destruct (Ascii.eqb_spec key k); case_decide; simpl; congruence.
  - destruct (Ascii.eqb_spec k' key) as [->|Hne]; simpl.
    + destruct (Ascii.eqb_spec key k); case_decide; simpl; congruence.
    + destruct (Ascii.eqb_spec k' k) as [->|Hne']; simpl; [|exact IH].
      by rewrite decide_False.
Qed.

Lemma objSet_names object key value :
  map fst (objSet object key value) =
  if bool_decide (key ∈ map fst object) then map fst object
  else (map fst object ++ [key])%list.
Proof.
  induction object as [|[k v] r IH]; simpl; [done|].
  destruct (Ascii.eqb_spec k key) as [->|Hne]; simpl.
  - by rewrite bool_decide_eq_true_2 by (apply elem_of_cons; by left).
  - rewrite IH. case_bool_decide as E.
    + by rewrite bool_decide_eq_true_2 by (apply elem_of_cons; by right).
    + rewrite bool_decide_eq_false_2; [done|]. intros [?|?]%elem_of_cons; done.
Qed.

Lemma objSet_NoDup object key value :
  NoDup (map fst object) → NoDup (map fst (objSet object key value)).
Proof.
  intros H. rewrite objSet_names. case_bool_decide as E; [done|].
  apply NoDup_app. split; [done|]. split; [|apply NoDup_singleton].
  intros x Hx ->%list_elem_of_singleton. by apply E.
Qed.

Lemma countLetterIn_NoDup object letter :
  NoDup (map fst object) → NoDup (map fst (countLetterIn object letter)).
Proof.
  intros H. unfold countLetterIn.
  destruct (objGet object letter) as [[|p|p]|];
    destruct (objGet _ letter); auto using objSet_NoDup.
Qed.

Lemma countLetterIn_lookup object (t : gmap ascii Z) letter :
  (∀ c, objGet object c = t !! c) →
  ∀ c, objGet (countLetterIn object letter) c = countLetter t letter !! c.
Proof.
  intros H c. unfold countLetterIn, countLetter. rewrite <- (H letter).
  destruct (objGet object letter) as [[|p|p]|] eqn:E.
  - rewrite objGet_objSet, decide_True by done. rewrite objGet_objSet.
    rewrite lookup_alter. case_decide as Hc.
    + subst. rewrite decide_True by done. by rewrite lookup_insert_eq.
    + rewrite decide_False by done. rewrite objGet_objSet, decide_False by done.
      rewrite lookup_insert_ne by done. apply H.
  - rewrite E, objGet_objSet, lookup_alter. case_decide as Hc.
    + subst. rewrite decide_True by done. by rewrite <- H, E.
    + rewrite decide_False by done. apply H.
  - rewrite E, objGet_objSet, lookup_alter. case_decide as Hc.
    + subst. rewrite decide_True by done. by rewrite <- H, E.
    + rewrite decide_False by done. apply H.
  - rewrite objGet_objSet, decide_True by done. rewrite objGet_objSet.
    rewrite lookup_alter. case_decide as Hc.
    + subst. rewrite decide_True by done. by rewrite lookup_insert_eq.
    + rewrite decide_False by done. rewrite objGet_objSet, decide_False by done.
      rewrite lookup_insert_ne by done. apply H.
Qed.

Lemma letterFrequencyObject_table words atIndex :
  NoDup (map fst (letterFrequencyObject words atIndex)) ∧
  ∀ c, objGet (letterFrequencyObject words atIndex) c = letterFrequencyOf words atIndex !! c.
Proof.
  assert (Hletters : ∀ letters index o (t : gmap ascii Z),
    NoDup (map fst o) ∧ (∀ c, objGet o c = t !! c) →
    NoDup (map fst (forEachFrom (visitIn atIndex) letters index o)) ∧
    (∀ c, objGet (forEachFrom (visitIn atIndex) letters index o) c =
          forEachFrom (visit atIndex) letters index t !! c)).
  { induction letters as [|l r IH]; intros index o t [Hnd Hl]; simpl; [done|].
    apply IH. unfold visitIn, visit. destruct atIndex as [k|].
    - destruct (negb (k =? index)%nat); [done|].
      split; [by apply countLetterIn_NoDup|by apply countLetterIn_lookup].
    - split; [by apply countLetterIn_NoDup|by apply countLetterIn_lookup]. }
  assert (Hwords : ∀ ws o (t : gmap ascii Z),
    NoDup (map fst o) ∧ (∀ c, objGet o c = t !! c) →
    NoDup (map fst (fold_left (λ letterFreq word,
             forEachFrom (visitIn atIndex) (split word) 0%nat letterFreq) ws o)) ∧
    (∀ c, objGet (fold_left (λ letterFreq word,
             forEachFrom (visitIn atIndex) (split word) 0%nat letterFreq) ws o) c =
          fold_left (λ letterFreq word,
             forEachFrom (visit atIndex) (split word) 0%nat letterFreq) ws t !! c)).
  { induction ws as [|w ws IH]; intros o t H; simpl; [done|]. by apply IH, Hletters. }
  apply (Hwords words [] ∅). split; [constructor|]. intros c. by rewrite lookup_empty.
Qed.

Lemma filter_partition_Permutation {B} (p : B → bool) l :
  Permutation (List.filter p l ++ List.filter (λ x, negb (p x)) l) l.
Proof.
  induction l as [|x l IH]; simpl; [done|]. destruct (p x); simpl.
  - by constructor.
  - rewrite <- Permutation_middle. by constructor.
Qed.

Lemma objectEntries_Permutation object : Permutation (objectEntries object) object.
Proof.
  unfold objectEntries. rewrite sortBy_Permutation.
  apply (filter_partition_Permutation (λ p, isIndexName (fst p))).
Qed.

Lemma byValue_sign a b :
  isPositive (byValue a b) = true → isPositive (byValue b a) = false.
Proof. unfold byValue. simpl. rewrite Z.ltb_lt, Z.ltb_ge. lia. Qed.

Lemma objGet_In object key value :
  NoDup (map fst object) → In (key, value) object → objGet object key = Some value.
Proof.
  unfold objGet. induction object as [|[k v] r IH]; simpl; [done|].
  intros Hnd Hin. apply NoDup_cons in Hnd. destruct Hnd as [Hk Hnd].
  destruct Hin as [[= -> ->]|Hin].
  - by rewrite Ascii.eqb_refl.
  - destruct (Ascii.eqb_spec k key) as [->|Hne]; [|by apply IH].
    destruct Hk. apply list_elem_of_In, in_map_iff. by exists (key, value).
Qed.

(** The letters of [sortedLetters]: the names of the table, each once, by
    falling value. *)
Lemma sortedLetters_spec object :
  NoDup (map fst object) →
  Permutation (split (sortedLetters object)) (map fst object) ∧
  ∀ i j a b,
    split (sortedLetters object) !! i = Some a →
    split (sortedLetters object) !! j = Some b → (i < j)%nat →
    ∃ va vb, objGet object a = Some va ∧ objGet object b = Some vb ∧ vb ≤ va.
Proof.
  intros Hnd. unfold sortedLetters. rewrite split_join.
  assert (Hperm : Permutation (sortBy byValue (objectEntries object)) object).
  { rewrite sortBy_Permutation. apply objectEntries_Permutation. }
  split; [by apply Permutation_map|].
  intros i j a b Hi Hj Hlt. rewrite list_lookup_fmap in Hi, Hj.
  destruct (sortBy byValue (objectEntries object) !! i) as [[a' va]|] eqn:Ei; [|done].
  destruct (sortBy byValue (objectEntries object) !! j) as [[b' vb]|] eqn:Ej; [|done].
  simpl in Hi, Hj. injection Hi as ->. injection Hj as ->.
  exists va, vb. split; [|split].
  - apply (objGet_In _ _ _ Hnd). apply (Permutation_in _ Hperm).
    rewrite <- list_elem_of_In. apply list_elem_of_lookup. eauto.
  - apply (objGet_In _ _ _ Hnd). apply (Permutation_in _ Hperm).
    rewrite <- list_elem_of_In. apply list_elem_of_lookup. eauto.
  - assert (H : inOrder byValue (a, va) (b, vb)).
    { apply (Sorted_pairs (inOrder byValue) (λ _, True))
        with (l := sortBy byValue (objectEntries object)) (i := i) (j := j); auto.
      - intros x. unfold inOrder, byValue. simpl. apply Z.ltb_ge. lia.
      - intros x y z _ _ _. unfold inOrder, byValue. simpl.
        rewrite !Z.ltb_ge. lia.
      - apply sortBy_Sorted. intros x y. apply byValue_sign.
      - by apply Forall_forall. }
    unfold inOrder, byValue in H. simpl in H. apply Z.ltb_ge in H. lia.
Qed.

Lemma timesIn_pos letter words :
  timesIn letter words ≠ 0%nat ↔ ∃ w, In w words ∧ In letter (split w).
Proof.
  unfold timesIn. induction words as [|w ws IH]; simpl.
  - split; [done|by intros (? & [] & _)].
  - split.
    + intros H. destruct (in_dec ascii_dec letter (split w)) as [Hin|Hnin].
      * exists w. auto.
      * apply (count_occ_not_In ascii_dec) in Hnin. rewrite Hnin in H.
        destruct (proj1 IH H) as (w' & ? & ?). exists w'. auto.
    + intros (w' & [<-|Hw] & Hl).
      * apply (count_occ_In ascii_dec) in Hl. lia.
      * assert (list_sum (map (λ word, count_occ ascii_dec (split word) letter) ws) ≠ 0)%nat.
        { apply IH. eauto. }
        lia.
Qed.

Lemma wordsWithAt_pos letter index words :
  wordsWithAt letter index words ≠ 0%nat ↔
  ∃ w, In w words ∧ charAt w index = Some letter.
Proof.
  unfold wordsWithAt. induction words as [|w ws IH]; simpl.
  - split; [done|by intros (? & [] & _)].
  - case_bool_decide as E; simpl.
    + split; [|lia]. intros _. exists w. auto.
    + rewrite IH. split.
      * intros (w' & ? & ?). exists w'. auto.
      * intros (w' & [<-|?] & ?); [done|]. exists w'. auto.
Qed.

(** The letters that [bestLetters] makes of the table of [letterFrequency]:
    the letters that occur, each once, by falling number of occurrences. *)
Lemma sortedLetters_frequency words atIndex :
  NoDup (split (sortedLetters (letterFrequencyObject words atIndex))) ∧
  (∀ c, In c (split (sortedLetters (letterFrequencyObject words atIndex))) ↔
        occurrences atIndex c words ≠ 0%nat) ∧
  (∀ i j a b,
     split (sortedLetters (letterFrequencyObject words atIndex)) !! i = Some a →
     split (sortedLetters (letterFrequencyObject words atIndex)) !! j = Some b →
     (i < j)%nat →
     (occurrences atIndex b words ≤ occurrences atIndex a words)%nat).
Proof.
  destruct (letterFrequencyObject_table words atIndex) as [Hnd Hl].
  destruct (sortedLetters_spec _ Hnd) as [Hperm Hord].
  assert (Hin : ∀ c, In c (map fst (letterFrequencyObject words atIndex)) ↔
                     occurrences atIndex c words ≠ 0%nat).
  { intros c. specialize (Hl c). rewrite letterFrequencyOf_lookup in Hl.
    destruct (Nat.eqb_spec (occurrences atIndex c words) 0) as [E|E].
    - split; [|done]. intros H. apply in_map_iff in H. destruct H as ([k v] & <- & H).
      apply (objGet_In _ _ _ Hnd) in H. simpl in Hl. congruence.
    - split; [done|]. intros _. unfold objGet in Hl.
      destruct (List.find _ _) as [[k v]|] eqn:Ef; [|done].
      apply find_some in Ef. destruct Ef as [Ef Ek]. apply Ascii.eqb_eq in Ek.
      simpl in Ek. subst k. apply in_map_iff. by exists (c, v). }
  split; [|split].
  - by rewrite Hperm.
  - intros c. rewrite <- Hin. split; apply Permutation_in; [done|by symmetry].
  - intros i j a b Hi Hj Hlt. destruct (Hord i j a b Hi Hj Hlt) as (va & vb & Ha & Hb & Hle).
    rewrite Hl, letterFrequencyOf_lookup in Ha, Hb.
    destruct (occurrences atIndex a words =? 0)%nat; [done|].
    destruct (occurrences atIndex b words =? 0)%nat; [done|].
    injection Ha as <-. injection Hb as <-. lia.
Qed.

(** X17. [bestLetters()] leaves the solver alone and returns the letters
    that occur in the corpus, each exactly once, a letter with more
    occurrences before a letter with fewer. *)
Theorem bestLetters_of_corpus this :
  ∃ s, bestLetters None this = (Returned s, this) ∧
    NoDup (split s) ∧
    (∀ c, In c (split s) ↔ ∃ w, In w (corpus this) ∧ In c (split w)) ∧
    (∀ i j a b, split s !! i = Some a → split s !! j = Some b → (i < j)%nat →
       (timesIn b (corpus this) ≤ timesIn a (corpus this))%nat).
Proof.
  exists (sortedLetters (letterFrequencyObject (corpus this) None)).
  split; [reflexivity|].
  destruct (sortedLetters_frequency (corpus this) None) as (Hnd & Hin & Hord).
  split; [exact Hnd|]. split; [|exact Hord].
  intros c. rewrite Hin. apply timesIn_pos.
Qed.

(** X18. [bestLetters(frequencyMap)] with a table of its own returns the
    names of the table, each once, by falling value, and does not look at
    the solver. *)
Theorem bestLetters_of_table this object :
  NoDup (map fst object) →
  ∃ s, bestLetters (Some object) this = (Returned s, this) ∧
    Permutation (split s) (map fst object) ∧
    (∀ i j a b, split s !! i = Some a → split s !! j = Some b → (i < j)%nat →
       ∃ va vb, objGet object a = Some va ∧ objGet object b = Some vb ∧ vb ≤ va).
Proof.
  intros Hnd. exists (sortedLetters object). split; [reflexivity|].
  by apply sortedLetters_spec.
Qed.

Lemma bestLetters_of_table_witness :
  NoDup (map fst [("a"%char, 3); ("7"%char, 5); ("b"%char, 5); ("2"%char, 5)]) ∧
  bestLetters (Some [("a"%char, 3); ("7"%char, 5); ("b"%char, 5); ("2"%char, 5)]) demoSolver
    = (Returned "27ba", demoSolver) ∧
  ∃ s, bestLetters (Some [("a"%char, 3); ("7"%char, 5); ("b"%char, 5); ("2"%char, 5)])
         demoSolver = (Returned s, demoSolver) ∧
    Permutation (split s) (map fst [("a"%char, 3); ("7"%char, 5); ("b"%char, 5); ("2"%char, 5)]) ∧
    (∀ i j a b, split s !! i = Some a → split s !! j = Some b → (i < j)%nat →
       ∃ va vb,
         objGet [("a"%char, 3); ("7"%char, 5); ("b"%char, 5); ("2"%char, 5)] a = Some va ∧
         objGet [("a"%char, 3); ("7"%char, 5); ("b"%char, 5); ("2"%char, 5)] b = Some vb ∧
         vb ≤ va).
Proof.
  assert (H : NoDup (map fst [("a"%char, 3); ("7"%char, 5); ("b"%char, 5); ("2"%char, 5)])).
  { apply (bool_decide_unpack (NoDup _)). by vm_compute. }
  split; [exact H|]. split; [reflexivity|].
  exact (bestLetters_of_table demoSolver _ H).
Defined.

Lemma bestLetterPositionsFrom_run count : ∀ index result this,
  bestLetterPositionsFrom count index result this =
  (Returned (result ++ map (λ k, sortedLetters (letterFrequencyObject (corpus this) (Some k)))
                         (seq index count))%list, this).
Proof.
  induction count as [|count IH]; intros index result this.
  - simpl. by rewrite app_nil_r.
  - cbn [bestLetterPositionsFrom]. unfold mbind, M_bind, get, bestLetters.
    cbn beta iota. unfold mbind, M_bind, get. cbn beta iota.
    unfold mret, M_ret at 1. cbn beta iota. rewrite IH. simpl.
    by rewrite <- app_assoc.
Qed.

(** X19. [bestLetterPositions] ranks the corpus, as [getSolutions] does, and
    returns one string per position of a guess: the string for a position
    holds the letters that corpus words have at that position, each exactly
    once, a letter found there in more words before a letter found there in
    fewer. *)
Theorem bestLetterPositions_result this :
  ∃ result,
    bestLetterPositions this = (Returned result, withCorpus (ranked (corpus this)) this) ∧
    length result = guessLength this ∧
    ∀ k s, result !! k = Some s →
      NoDup (split s) ∧
      (∀ c, In c (split s) ↔ ∃ w, In w (corpus this) ∧ charAt w k = Some c) ∧
      (∀ i j a b, split s !! i = Some a → split s !! j = Some b → (i < j)%nat →
         (wordsWithAt b k (corpus this) ≤ wordsWithAt a k (corpus this))%nat).
Proof.
  exists (map (λ k, sortedLetters (letterFrequencyObject (ranked (corpus this)) (Some k)))
            (seq 0 (guessLength this))).
  split; [|split].
  - unfold bestLetterPositions, mbind, M_bind, get. rewrite getSolutions_run.
    cbn beta iota. by rewrite bestLetterPositionsFrom_run.
  - by rewrite length_map, length_seq.
  - intros k s Hk. rewrite list_lookup_fmap in Hk.
    destruct (seq 0 (guessLength this) !! k) as [k'|] eqn:Ek; [|done].
    apply lookup_seq in Ek. destruct Ek as [-> _]. simpl in Hk. injection Hk as <-.
    destruct (sortedLetters_frequency (ranked (corpus this)) (Some k)) as (Hnd & Hin & Hord).
    assert (Hocc : ∀ c, occurrences (Some k) c (ranked (corpus this))
                        = wordsWithAt c k (corpus this)).
    { intros c. apply (occurrences_Permutation (Some k)), ranked_Permutation. }
    split; [exact Hnd|]. split.
    + intros c. rewrite Hin, Hocc. apply wordsWithAt_pos.
    + intros i j a b Hi Hj Hlt. rewrite <- !Hocc. by apply (Hord i j).
Qed.

(** The example corpus: its letters by frequency, overall and per position. *)
Example bestLetters_demo :
  fst (bestLetters None demoSolver) = Returned "erthoiwvlasfy" ∧
  fst (bestLetterPositions demoSolver) =
    Returned ["tolsf"; "htovai"; "ehwtir"; "er"; "rety"].
Proof. by vm_compute. Qed.

(** ** Ties, construction, repeated and swapped scores *)

Lemma insertBy_filter {B} (cmp : B → B → num) (p : B → bool) a l :
  (∀ x y, isPositive (cmp x y) = true → p x = true → p y = false) →
  List.filter p (insertBy cmp a l) = List.filter p (a :: l).
Proof.
  intros H. induction l as [|b r IH]; [done|]. cbn [insertBy].
  destruct (isPositive (cmp a b)) eqn:E; [|done].
  cbn [List.filter]. rewrite IH. cbn [List.filter].
  destruct (p a) eqn:Ea; [|done]. by rewrite (H a b E Ea).
Qed.

Lemma sortBy_filter {B} (cmp : B → B → num) (p : B → bool) l :
  (∀ x y, isPositive (cmp x y) = true → p x = true → p y = false) →
  List.filter p (sortBy cmp l) = List.filter p l.
Proof.
  intros H. induction l as [|a r IH]; [done|]. cbn [sortBy foldr].
  fold (sortBy cmp r). rewrite (insertBy_filter cmp p a _ H).
  cbn [List.filter]. by rewrite IH.
Qed.

(** X20. The ranking is stable: the words that rank alike (same number of
    distinct letters, same frequency sum) stand after ranking in the order
    they had in the corpus before. *)
Theorem ranked_keeps_order_of_ties words x :
  List.filter (sameRank words x) (ranked words) = List.filter (sameRank words x) words.
Proof.
  apply sortBy_filter. intros a b Hpos Ha.
  apply bool_decide_eq_true in Ha. destruct Ha as [Hu Hs].
  apply bool_decide_eq_false. intros [Hu' Hs'].
  unfold byFrequency in Hpos. cbn zeta in Hpos.
  destruct (Z.eqb_spec (uniqs b - uniqs a) 0) as [E|E]; [|lia].
  cbn [negb] in Hpos. rewrite Hs, Hs' in Hpos.
  destruct (sumFrequencies (letterFrequencyOf words None) x); simpl in Hpos; [|done].
  rewrite Z.sub_diag in Hpos. done.
Qed.

(** X21. The constructor takes any list of words: it keeps every word,
    duplicates and words of other lengths included, only in ranked order;
    the history starts empty and the guess length is 5. *)
Theorem constructor_keeps_every_word words sw lg :
  Permutation (corpus (newWordleSolver words sw lg)) words ∧
  ranked (corpus (newWordleSolver words sw lg)) = corpus (newWordleSolver words sw lg) ∧
  guessesAndScores (newWordleSolver words sw lg) = [] ∧
  logging (newWordleSolver words sw lg) = lg ∧
  guessLength (newWordleSolver words sw lg) = 5%nat.
Proof.
  rewrite newWordleSolver_eq. simpl. split; [apply ranked_Permutation|].
  split; [apply ranked_idempotent|done].
Qed.

Lemma filter_all {B} (p : B → bool) l :
  (∀ x, In x l → p x = true) → List.filter p l = l.
Proof.
  induction l as [|x l IH]; intros H; simpl; [done|].
  rewrite (H x) by (by left). f_equal. apply IH. intros y Hy. apply H. by right.
Qed.

Lemma filter_Permutation {B} (p : B → bool) l l' :
  Permutation l l' → Permutation (List.filter p l) (List.filter p l').
Proof.
  induction 1 as [|x l l' H IH|x y l|l l' l'' H1 IH1 H2 IH2]; simpl.
  - done.
  - destruct (p x); [by constructor|done].
  - destruct (p x), (p y); try done. apply perm_swap.
  - by etrans.
Qed.

(** X22. Scoring the same valid guess with the same feedback a second time
    leaves the corpus exactly as the first call left it; only the history
    gets a second record. *)
Theorem score_twice this guess fb :
  validCall this guess fb →
  ∃ once twice,
    score guess fb this = (Returned tt, once) ∧
    score guess fb once = (Returned tt, twice) ∧
    corpus twice = corpus once ∧
    guessesAndScores twice = (guessesAndScores this ++ [(guess, fb); (guess, fb)])%list.
Proof.
  intros Hv. exists (afterScore this guess fb), (afterScore (afterScore this guess fb) guess fb).
  split; [by apply score_run|]. split; [by apply score_run|]. split.
  - simpl. rewrite filter_all; [apply ranked_idempotent|].
    intros w Hw. apply ranked_In, filter_In in Hw. tauto.
  - simpl. by rewrite <- app_assoc.
Qed.

Lemma score_twice_witness :
  validCall demoSolver "later" "eeixx" ∧
  ∃ once twice,
    score "later" "eeixx" demoSolver = (Returned tt, once) ∧
    score "later" "eeixx" once = (Returned tt, twice) ∧
    corpus twice = corpus once ∧
    guessesAndScores twice =
      (guessesAndScores demoSolver ++ [("later", "eeixx"); ("later", "eeixx")])%list.
Proof.
  split; [repeat split; reflexivity|].
  apply (score_twice demoSolver "later" "eeixx"). repeat split; reflexivity.
Defined.

Lemma ranked_filter_twice (p q : string → bool) l :
  Permutation (ranked (List.filter q (ranked (List.filter p l))))
              (List.filter (λ x, p x && q x) l).
Proof.
  etrans; [apply ranked_Permutation|].
  etrans; [apply filter_Permutation, ranked_Permutation|].
  by rewrite filter_filter.
Qed.

(** X23. Two valid scored guesses leave the same words whichever is entered
    first: the two corpora are permutations of each other, and hold exactly
    the words of the old corpus that are consistent with both. *)
Theorem score_order_irrelevant this guess1 fb1 guess2 fb2 :
  validCall this guess1 fb1 → validCall this guess2 fb2 →
  ∃ s12 s21,
    (score guess1 fb1;; score guess2 fb2) this = (Returned tt, s12) ∧
    (score guess2 fb2;; score guess1 fb1) this = (Returned tt, s21) ∧
    Permutation (corpus s12) (corpus s21) ∧
    ∀ w, In w (corpus s12) ↔
         In w (corpus this) ∧ consistent guess1 fb1 w ∧ consistent guess2 fb2 w.
Proof.
  intros H1 H2.
  exists (afterScore (afterScore this guess1 fb1) guess2 fb2),
         (afterScore (afterScore this guess2 fb2) guess1 fb1).
  split; [|split; [|split]].
  - unfold mbind, M_bind. by rewrite (score_run _ _ _ H1), score_run.
  - unfold mbind, M_bind. by rewrite (score_run _ _ _ H2), score_run.
  - simpl. etrans; [apply ranked_filter_twice|].
    etrans; [|symmetry; apply ranked_filter_twice].
    erewrite filter_ext_bool; [done|]. intros w. apply andb_comm.
  - intros w. simpl. rewrite !ranked_In, filter_In, ranked_In, filter_In.
    rewrite !keeps_consistent. tauto.
Qed.

Lemma score_order_irrelevant_witness :
  validCall demoSolver "later" "eeixx" ∧ validCall demoSolver "shire" "eeeii" ∧
  ∃ s12 s21,
    (score "later" "eeixx";; score "shire" "eeeii") demoSolver = (Returned tt, s12) ∧
    (score "shire" "eeeii";; score "later" "eeixx") demoSolver = (Returned tt, s21) ∧
    Permutation (corpus s12) (corpus s21) ∧
    ∀ w, In w (corpus s12) ↔
         In w (corpus demoSolver) ∧ consistent "later" "eeixx" w ∧
         consistent "shire" "eeeii" w.
Proof.
  split; [repeat split; reflexivity|]. split; [repeat split; reflexivity|].
  apply (score_order_irrelevant demoSolver "later" "eeixx" "shire" "eeeii");
    repeat split; reflexivity.
Defined.
